(** * transport-nearby: the import pipeline and the proximity engine

    A shallow embedding of [nearby-create/nearby-create-database.py] and
    [nearby-python/nearby-python-serve.py], and the properties of the
    design document that are settled on it.

    Conventions of the embedding.
    - A Python [str] is a [string].  In the Python code one [ascii]
      stands for one character, which is exact on ASCII text; the SQL
      engine reads the same string as UTF-8 and [LIKE] goes through it
      character by character.
    - A Python [dict] used as a record keeps its insertion order and is an
      association list; a [dict] used as a map and a [set] are stdpp's
      [gmap] and [gset].
    - A Python [float] of the importer is a binary64 float of the
      kernel ([PrimFloat.float]), with NaN and the infinities and the
      comparisons of IEEE 754.  A distance the query engine reads from
      a row is the rational it denotes ([Q]), and the trigonometric
      code of the query engine is stated over [R].
    - A Python exception is [None] in the option monad. *)

From Stdlib Require Import Floats.
From Stdlib Require Import Ascii String Reals Psatz QArith Qminmax Qround.
From stdpp Require Import gmap strings list fin_maps.

Local Open Scope string_scope.

(** Decimal literals of the scripts are read as Python reads them: the
    nearest binary64 float. *)
#[local] Set Warnings "-inexact-float".

Abbreviation binary64 := PrimFloat.float.

(** ** Python built-ins used by the scripts *)

Module Py.

(** [s.startswith(p)] *)
Definition startswith (s p : string) : bool := String.prefix p s.

(** [sep.join(xs)] *)
Definition join (sep : string) (xs : list string) : string :=
  String.concat sep xs.

(** [s.replace("", new)]: [new] is inserted before every character and
    at the end. *)
Fixpoint replace_empty (new s : string) : string :=
  match s with
  | EmptyString => new
  | String c s' => new +:+ String c (replace_empty new s')
  end.

(** The left-to-right scan of [s.replace(old, new)] for a non-empty
    [old]: [skip] counts the characters of a match still to be
    consumed, so that occurrences do not overlap. *)
Fixpoint replace_from (old new : string) (skip : nat) (s : string) : string :=
  match s with
  | EmptyString => EmptyString
  | String c s' =>
      match skip with
      | S k => replace_from old new k s'
      | O =>
          if String.prefix old s
          then new +:+ replace_from old new (String.length old - 1) s'
          else String c (replace_from old new 0 s')
      end
  end.

(** [s.replace(old, new)] *)
Definition replace (old new s : string) : string :=
  match old with
  | EmptyString => replace_empty new s
  | _ => replace_from old new 0 s
  end.

(** [s.split(sep)] for a one-character separator; the result is never
    empty. *)
Fixpoint split (sep : ascii) (s : string) : list string :=
  match s with
  | EmptyString => [EmptyString]
  | String c s' =>
      if Ascii.eqb c sep then EmptyString :: split sep s'
      else match split sep s' with
           | w :: ws => String c w :: ws
           | [] => [String c EmptyString]
           end
  end.

Fixpoint drop_last (s : string) : string :=
  match s with
  | EmptyString => EmptyString
  | String _ EmptyString => EmptyString
  | String c s' => String c (drop_last s')
  end.

(** [s[1:-1]] *)
Definition slice_1_m1 (s : string) : string :=
  drop_last (match s with EmptyString => EmptyString | String _ s' => s' end).

(** [c in s] for a character [c] *)
Fixpoint contains_char (c : ascii) (s : string) : bool :=
  match s with
  | EmptyString => false
  | String c' s' => Ascii.eqb c' c || contains_char c s'
  end.

(** [s[-1]], an [IndexError] being [None] *)
Fixpoint last_char (s : string) : option ascii :=
  match s with
  | EmptyString => None
  | String c s' =>
      match s' with
      | EmptyString => Some c
      | _ => last_char s'
      end
  end.

(** [xs[i]], an [IndexError] being [None] *)
Definition index {A} (xs : list A) (i : nat) : option A := xs !! i.

(** The character tables behind [str.title]: whether a character is
    cased, and its lower-case and title-case mappings (a mapping may
    yield several characters). *)
Record case_table := {
  is_cased : ascii -> bool;
  to_lower : ascii -> string;
  to_title : ascii -> string
}.

(** [s.title()]: a character that follows a cased character is
    lower-cased, any other is title-cased. *)
Fixpoint title_from (tbl : case_table) (previous_is_cased : bool) (s : string)
  : string :=
  match s with
  | EmptyString => EmptyString
  | String c s' =>
      (if previous_is_cased then to_lower tbl c else to_title tbl c)
      +:+ title_from tbl (is_cased tbl c) s'
  end.

Definition title (tbl : case_table) (s : string) : string :=
  title_from tbl false s.

(** The tables restricted to ASCII letters. *)
Definition ascii_is_upper (c : ascii) : bool :=
  (65 <=? nat_of_ascii c)%nat && (nat_of_ascii c <=? 90)%nat.
Definition ascii_is_lower (c : ascii) : bool :=
  (97 <=? nat_of_ascii c)%nat && (nat_of_ascii c <=? 122)%nat.
Definition ascii_lower (c : ascii) : ascii :=
  if ascii_is_upper c then ascii_of_nat (nat_of_ascii c + 32) else c.
Definition ascii_upper (c : ascii) : ascii :=
  if ascii_is_lower c then ascii_of_nat (nat_of_ascii c - 32) else c.

(** [s.lower()] on ASCII *)
Fixpoint lower (s : string) : string :=
  match s with
  | EmptyString => EmptyString
  | String c s' => String (ascii_lower c) (lower s')
  end.

Definition ascii_table : case_table := {|
  is_cased c := ascii_is_upper c || ascii_is_lower c;
  to_lower c := String (ascii_lower c) EmptyString;
  to_title c := String (ascii_upper c) EmptyString
|}.

End Py.

(** ** The fragment of SQLite the scripts rely on *)

Module Sql.

(** [LIKE] compares ASCII letters without regard to case. *)
Definition eqb_nocase (a b : ascii) : bool :=
  Ascii.eqb (Py.ascii_lower a) (Py.ascii_lower b).

(** [LIKE] reads text as UTF-8, which every [str] bound from Python
    is: a byte from 0xC0 on starts a character that runs over the bytes
    0x80 to 0xBF that follow it, any other byte is a character of its
    own. *)
Definition utf8_lead (c : ascii) : bool := (192 <=? nat_of_ascii c)%nat.
Definition utf8_continuation (c : ascii) : bool :=
  (128 <=? nat_of_ascii c)%nat && (nat_of_ascii c <? 192)%nat.

(** The rest of a character whose first byte has been read. *)
Fixpoint skip_continuation (s : list ascii) : list ascii :=
  match s with
  | [] => []
  | c :: s' => if utf8_continuation c then skip_continuation s' else s
  end.

(** [s LIKE pattern]: [%] matches any run of characters, [_] exactly
    one character.  In the [%] case [inside] tells that [s] starts in
    the middle of a character, where no match is tried. *)
Fixpoint like_list (pattern : list ascii) : list ascii -> bool :=
  match pattern with
  | [] => fun s => match s with [] => true | _ => false end
  | p :: pattern' =>
      if Ascii.eqb p "%"%char then
        (fix any (inside : bool) (s : list ascii) : bool :=
           match s with
           | [] => like_list pattern' []
           | c :: s' =>
               if inside && utf8_continuation c then any true s'
               else like_list pattern' s || any (utf8_lead c) s'
           end) false
      else if Ascii.eqb p "_"%char then
        fun s => match s with
                 | [] => false
                 | c :: s' =>
                     like_list pattern'
                       (if utf8_lead c then skip_continuation s' else s')
                 end
      else
        fun s => match s with
                 | [] => false
                 | c :: s' => eqb_nocase p c && like_list pattern' s'
                 end
  end.

Definition like (s pattern : string) : bool :=
  like_list (list_ascii_of_string pattern) (list_ascii_of_string s).

(** [",".join(["?"] * n)], the host parameters of an [IN] list *)
Definition sql_params (n : nat) : string := Py.join "," (replicate n "?").

Fixpoint placeholders (s : string) : nat :=
  match s with
  | EmptyString => 0
  | String c s' => (if Ascii.eqb c "?"%char then 1 else 0) + placeholders s'
  end.

(** [cursor.execute(sql, params)] refuses a statement whose number of
    [?] differs from the number of values bound.  The limit the engine
    puts on the number of host parameters is left out. *)
Definition bound (sql_params : string) (params : list string) : option unit :=
  if Nat.eqb (placeholders sql_params) (length params) then Some tt else None.

(** [SELECT out FROM table WHERE col IN (sql_params)]; an empty list
    is accepted by SQLite and matches no row. *)
Definition select_in {A B} (out : A -> B) (col : A -> string)
    (sql_params : string) (params : list string) (table : list A)
  : option (list B) :=
  _ ← bound sql_params params;
  Some (out <$> filter (λ r, col r ∈ params) table).

(** [DELETE FROM table WHERE col IN (sql_params)] *)
Definition delete_in {A} (col : A -> string)
    (sql_params : string) (params : list string) (table : list A)
  : option (list A) :=
  _ ← bound sql_params params;
  Some (filter (λ r, col r ∉ params) table).

End Sql.

(** ** FeedImporter: records, name-spacing, normalisation, geography *)

(** The values a record holds: CSV text, [None] for a column a short row
    lacks, floats and integers computed by the importer. *)
Inductive value :=
| VStr (s : string)
| VNone
| VFloat (x : binary64)
| VInt (z : Z).

Arguments VFloat x%_float.

(** [float(n)] for an [int]: the nearest float, ties to even, and an
    [OverflowError] when [n] is too large for a float. *)
Definition float_of_int (n : Z) : option binary64 :=
  let x := SF2Prim (binary_normalize prec emax n 0 false) in
  if PrimFloat.is_infinity x then None else Some x.

(** [max(a, b)] and [min(a, b)] on floats: the second argument is
    returned only when it is greater (smaller) than the first. *)
Definition float_max (a b : binary64) : binary64 :=
  if (a <? b)%float then b else a.
Definition float_min (a b : binary64) : binary64 :=
  if (b <? a)%float then b else a.

(** A record is a [dict] from column names to values, in column order. *)
Definition dict := list (string * value).

(** [record[key]], a [KeyError] being [None] *)
Fixpoint dict_get (key : string) (record : dict) : option value :=
  match record with
  | [] => None
  | (k, v) :: record' => if String.eqb k key then Some v else dict_get key record'
  end.

(** [record[key] = v]: an existing key keeps its place. *)
Fixpoint dict_set (key : string) (v : value) (record : dict) : dict :=
  match record with
  | [] => [(key, v)]
  | (k, v') :: record' =>
      if String.eqb k key then (k, v) :: record'
      else (k, v') :: dict_set key v record'
  end.

(** Fields to prefix with the base_id when importing GTFS data. *)
Definition FIELD_IDS : list string :=
  ["trip_id"; "stop_id"; "route_id"; "service_id"; "cycle_id"].

(** Fields to drop from the GTFS data. *)
Definition FIELD_DROPS : list string :=
  ["agency_id"; "stop_url"; "stop_timezone"; "stop_desc"; "zone_id";
   "route_desc"; "route_color"; "route_text_color"; "route_url";
   "route_sort_order"; "stop_headsign"; "shape_dist_traveled"; "timepoint";
   "trip_short_name"; "trip_headsign"; "block_id"; "shape_id";
   "arrival_time"; "departure_time"; "pickup_type"; "drop_off_type";
   "monday"; "tuesday"; "wednesday"; "thursday"; "friday"; "saturday";
   "sunday"; "stop_code"; "location_type"; "parent_station";
   "bikes_allowed"; "trip_bikes_allowed"; "platform_code";
   "stop_times.route_short_name"; "trips.route_short_name";
   "ticketing_trip_id"; "ticketing_type"].

(** [base_id + record[key]]: only text can be appended to the tag, any
    other value is a [TypeError]. *)
Definition str_add (base_id : string) (v : value) : option value :=
  match v with
  | VStr s => Some (VStr (base_id +:+ s))
  | _ => None
  end.

(** The [values] comprehension of [import_table]: for each field of the
    record in turn, drop it, prefix it or pass it through. *)
Fixpoint import_table_values (table_name base_id : string) (record : dict)
  : option dict :=
  match record with
  | [] => Some []
  | (key, v) :: record' =>
      if bool_decide (key ∉ FIELD_DROPS)
         && bool_decide (table_name +:+ "." +:+ key ∉ FIELD_DROPS)
      then
        v' ← (if bool_decide (key ∈ FIELD_IDS) then str_add base_id v else Some v);
        values ← import_table_values table_name base_id record';
        Some ((key, v') :: values)
      else import_table_values table_name base_id record'
  end.

(** [import_table] up to [cursor.execute]: the [values] built for the
    records, in order.  What the engine makes of each [INSERT] (a
    statement without a column, a constraint of the schema) is not
    modelled. *)
Definition import_table (table_name base_id : string) (records : list dict)
  : option (list dict) :=
  mapM (import_table_values table_name base_id) records.

(** [low <= x <= high] on floats, bounds included; false of NaN. *)
Definition float_between (low high x : binary64) : Prop :=
  (low <=? x)%float = true ∧ (x <=? high)%float = true.

(** Bounding box of the Metropole Rouen Normandie. *)
Definition MRN_FAR_EAST : binary64 * binary64 := (49.48682, 0.77446)%float.
Definition MRN_FAR_NORTH : binary64 * binary64 := (49.54676, 0.85565)%float.
Definition MRN_FAR_WEST : binary64 * binary64 := (49.37555, 1.28984)%float.
Definition MRN_FAR_SOUTH : binary64 * binary64 := (49.25066, 1.00526)%float.

Definition MAX_LATITUDE : binary64 := float_max (MRN_FAR_NORTH.1) (MRN_FAR_SOUTH.1).
Definition MIN_LATITUDE : binary64 := float_min (MRN_FAR_NORTH.1) (MRN_FAR_SOUTH.1).
Definition MAX_LONGITUDE : binary64 := float_max (MRN_FAR_EAST.2) (MRN_FAR_WEST.2).
Definition MIN_LONGITUDE : binary64 := float_min (MRN_FAR_EAST.2) (MRN_FAR_WEST.2).

(** A point is inside the bounding box. *)
Definition in_bounding_box (latitude longitude : binary64) : Prop :=
  float_between MIN_LATITUDE MAX_LATITUDE latitude
  ∧ float_between MIN_LONGITUDE MAX_LONGITUDE longitude.

Section Importer.

(** The built-ins [float] on text (a [ValueError] being [None]) and
    [math.radians] on floats, the case tables of [str.title] and the
    list read from [nearby-create-database.corrections.txt]. *)
Variable float : string -> option binary64.
Variable radians : binary64 -> binary64.
Variable case_table : Py.case_table.
Variable CORRECTIONS : list (string * string).

(** [float(v)] for a value read from a record *)
Definition float_of_value (v : value) : option binary64 :=
  match v with
  | VStr s => float s
  | VFloat x => Some x
  | VInt n => float_of_int n
  | VNone => None
  end.

(** [normalize_name] *)
Definition normalize_name (name : string) : string :=
  (* Set the name to title case. *)
  let name := Py.title case_table name in
  foldl (λ name c, Py.replace c.1 c.2 name) name CORRECTIONS.

(** [normalize_name(v)] for a value read from a record; only text has
    [title]. *)
Definition normalize_value (v : value) : option value :=
  match v with
  | VStr s => Some (VStr (normalize_name s))
  | _ => None
  end.

(** [a < b] on floats: false when either is NaN *)
Definition float_lt (a b : binary64) : bool := (a <? b)%float.

(** One turn of the stops loop of [import_gtfs_data]: [None] is an
    exception, [Some None] a stop that is skipped, [Some (Some stop)]
    the stop that is appended. *)
Definition import_stop (row : dict) : option (option dict) :=
  (* Ignore stops outside the Metropole Rouen Normandie. *)
  latitude ← dict_get "stop_lat" row ≫= float_of_value;
  if float_lt latitude MIN_LATITUDE || float_lt MAX_LATITUDE latitude
  then Some None
  else
    longitude ← dict_get "stop_lon" row ≫= float_of_value;
    if float_lt longitude MIN_LONGITUDE || float_lt MAX_LONGITUDE longitude
    then Some None
    else
      stop_name ← dict_get "stop_name" row ≫= normalize_value;
      let stop := dict_set "stop_name" stop_name row in
      let stop := dict_set "stop_lat" (VFloat (radians latitude)) stop in
      let stop := dict_set "stop_lon" (VFloat (radians longitude)) stop in
      Some (Some stop).

(** The stops loop: the stops kept, in order. *)
Fixpoint import_stops (rows : list dict) : option (list dict) :=
  match rows with
  | [] => Some []
  | row :: rows' =>
      stop ← import_stop row;
      stops ← import_stops rows';
      Some (match stop with Some stop => stop :: stops | None => stops end)
  end.

(** [derive_cycle_type]: a key of [cycle_types], or -1 *)
Definition derive_cycle_type (mobilier : value) : Z :=
  match mobilier with
  | VStr mobilier =>
      if String.eqb mobilier "ARCEAU" then 0
      else if String.eqb mobilier "PARC" then 1
      else if String.eqb mobilier "POTELET" then 2
      else if String.eqb mobilier "RATELIER" then 3
      else if String.eqb mobilier "LOVELO" then 4
      else (-1)
  | _ => (-1)
  end.

(** [derive_cycle_free] *)
Definition derive_cycle_free (acces : value) : Z :=
  match acces with
  | VStr acces => if String.eqb acces "LIBRE ACCES" then 1 else 0
  | _ => 0
  end.

(** [derive_cycle_latitude]:
    [float(coordonneesxy[1:-1].split(",")[1])] *)
Definition derive_cycle_latitude (coordonneesxy : string) : option binary64 :=
  Py.index (Py.split "," (Py.slice_1_m1 coordonneesxy)) 1 ≫= float.

(** [derive_cycle_longitude]:
    [float(coordonneesxy[1:-1].split(",")[0])] *)
Definition derive_cycle_longitude (coordonneesxy : string) : option binary64 :=
  Py.index (Py.split "," (Py.slice_1_m1 coordonneesxy)) 0 ≫= float.

(** A text column of a CSV row *)
Definition dict_get_str (key : string) (row : dict) : option string :=
  match dict_get key row with
  | Some (VStr s) => Some s
  | _ => None
  end.

(** The record [import_cycle_data] builds from one row of the cycling
    file. *)
Definition cycle_stop (row : dict) : option dict :=
  cycle_id ← dict_get "id_local" row;
  coordonneesxy ← dict_get_str "coordonneesxy" row;
  cycle_lat ← derive_cycle_latitude coordonneesxy;
  cycle_lon ← derive_cycle_longitude coordonneesxy;
  mobilier ← dict_get "mobilier" row;
  acces ← dict_get "acces" row;
  Some [("cycle_id", cycle_id);
        ("cycle_name", VNone);
        ("cycle_lat", VFloat (radians cycle_lat));
        ("cycle_lon", VFloat (radians cycle_lon));
        ("cycle_type", VInt (derive_cycle_type mobilier));
        ("cycle_free", VInt (derive_cycle_free acces))].

(** [import_cycle_data]: the rows handed to [INSERT]. *)
Definition import_cycle_data (cycle_data : list dict) : option (list dict) :=
  cycle_stops ← mapM cycle_stop cycle_data;
  import_table "cycle_stops" "CYC-" cycle_stops.

End Importer.


(** ** The store: the tables of [nearby-create-database.db.sql] that the
    reconciliation reads and writes, with the columns it names *)

Module Routes.
Record row := {
  route_id : string;
  route_short_name : string;
  route_long_name : string
}.
End Routes.

Module Stops.
Record row := {
  stop_id : string;
  stop_name : string;
  stop_lat : binary64;
  stop_lon : binary64
}.
End Stops.

Module StopTimes.
Record row := {
  trip_id : string;
  stop_id : string
}.
End StopTimes.

Module Trips.
Record row := {
  trip_id : string;
  route_id : string;
  service_id : string
}.
End Trips.

Module CacheStopRoutes.
Record row := {
  stop_id : string;
  route_id : string;
  school : bool
}.
End CacheStopRoutes.

Record store := {
  routes : list Routes.row;
  stops : list Stops.row;
  stop_times : list StopTimes.row;
  trips : list Trips.row;
  cache_stop_routes : list CacheStopRoutes.row
}.

(** ** MergeReconciler *)

(** [remove_trips] *)
Definition remove_trips (trip_ids : list string) (db : store) : option store :=
  (* Find all stops associated with the trip. *)
  let sql_params := Sql.sql_params (length trip_ids) in
  rows ← Sql.select_in StopTimes.stop_id StopTimes.trip_id sql_params trip_ids
           (stop_times db);
  let stop_ids : gset string := list_to_set rows in
  (* Find all routes associated with the trip. *)
  rows ← Sql.select_in Trips.route_id Trips.trip_id sql_params trip_ids (trips db);
  let route_ids : gset string := list_to_set rows in
  (* Delete trips. *)
  trips' ← Sql.delete_in Trips.trip_id sql_params trip_ids (trips db);
  (* Delete stops associated with the trip. *)
  let sql_params := Sql.sql_params (size stop_ids) in
  stops' ← Sql.delete_in Stops.stop_id sql_params (elements stop_ids) (stops db);
  (* Delete cache_stop_routes associated with the trip. *)
  cache' ← Sql.delete_in CacheStopRoutes.stop_id sql_params (elements stop_ids)
             (cache_stop_routes db);
  (* Delete routes associated with the trip. *)
  let sql_params := Sql.sql_params (size route_ids) in
  routes' ← Sql.delete_in Routes.route_id sql_params (elements route_ids) (routes db);
  Some {| routes := routes'; stops := stops'; stop_times := stop_times db;
          trips := trips'; cache_stop_routes := cache' |}.

(** [DELETE FROM stops WHERE stop_id LIKE 'AST-___ASC'] *)
Definition delete_elevator_stops (db : store) : store :=
  {| routes := routes db;
     stops := filter (λ s, Sql.like (Stops.stop_id s) "AST-___ASC" = false) (stops db);
     stop_times := stop_times db; trips := trips db;
     cache_stop_routes := cache_stop_routes db |}.

(** [remove_elevators] *)
Definition remove_elevators (db : store) : option store :=
  (* Find all trips targeting elevators. *)
  let trips :=
    Trips.trip_id <$>
      filter (λ t, Sql.like (Trips.service_id t) "AST-ASCESC%"
                   || Sql.like (Trips.service_id t) "AST-___ASC" = true)
             (trips db) in
  (* Delete elevators. *)
  let db := delete_elevator_stops db in
  db ← remove_trips trips db;
  (* Delete elevators. *)
  Some (delete_elevator_stops db).

(** [remove_atoumod_duplicates], in its three stages *)

(** Find all routes from Reseau Astuce, with '<>' removed and with '<>'
    replaced by a slash. *)
Definition find_astuce_long_names (db : store) : list string :=
  r ← filter (λ r, Sql.like (Routes.route_id r) "AST-%" = true) (routes db);
  [Py.replace "<>" "" (Routes.route_long_name r);
   Py.replace "<>" "/" (Routes.route_long_name r)].

(** Find routes from AtouMod with the same long name. *)
Definition find_atoumod_routes (route_long_names : list string) (db : store)
  : option (list string) :=
  let sql_params := Sql.sql_params (length route_long_names) in
  Sql.select_in Routes.route_id Routes.route_long_name sql_params route_long_names
    (filter (λ r, Sql.like (Routes.route_id r) "ATM-%" = true) (routes db)).

Definition delete_atoumod_routes (route_ids : list string) (db : store)
  : option store :=
  let sql_params := Sql.sql_params (length route_ids) in
  (* Delete trips associated with the routes. *)
  trips' ← Sql.delete_in Trips.route_id sql_params route_ids (trips db);
  (* Delete routes. *)
  routes' ← Sql.delete_in Routes.route_id sql_params route_ids (routes db);
  (* Delete cache_stop_routes associated with the routes. *)
  cache' ← Sql.delete_in CacheStopRoutes.route_id sql_params route_ids
             (cache_stop_routes db);
  Some {| routes := routes'; stops := stops db; stop_times := stop_times db;
          trips := trips'; cache_stop_routes := cache' |}.

Definition remove_atoumod_duplicates (db : store) : option store :=
  route_ids ← find_atoumod_routes (find_astuce_long_names db) db;
  delete_atoumod_routes route_ids db.

(** [remove_orphaned_stop_times]. The [LEFT JOIN ... IS NULL] keeps the
    stop_times rows without a partner in [stops]. *)
Definition find_orphaned_stop_times (db : store) : gset string :=
  list_to_set
    (StopTimes.stop_id <$>
       filter (λ st, StopTimes.stop_id st ∉ (Stops.stop_id <$> stops db))
              (stop_times db)).

Definition delete_orphaned_stop_times (stop_ids : gset string) (db : store)
  : option store :=
  let sql_params := Sql.sql_params (size stop_ids) in
  stop_times' ← Sql.delete_in StopTimes.stop_id sql_params (elements stop_ids)
                  (stop_times db);
  Some {| routes := routes db; stops := stops db; stop_times := stop_times';
          trips := trips db; cache_stop_routes := cache_stop_routes db |}.

Definition remove_orphaned_stop_times (db : store) : option store :=
  delete_orphaned_stop_times (find_orphaned_stop_times db) db.

(** [remove_orphaned_trips] *)
Definition find_orphaned_trips (db : store) : gset string :=
  list_to_set
    (Trips.trip_id <$>
       filter (λ t, Trips.trip_id t ∉ (StopTimes.trip_id <$> stop_times db))
              (trips db)).

Definition delete_orphaned_trips (trip_ids : gset string) (db : store)
  : option store :=
  let sql_params := Sql.sql_params (size trip_ids) in
  trips' ← Sql.delete_in Trips.trip_id sql_params (elements trip_ids) (trips db);
  Some {| routes := routes db; stops := stops db; stop_times := stop_times db;
          trips := trips'; cache_stop_routes := cache_stop_routes db |}.

Definition remove_orphaned_trips (db : store) : option store :=
  delete_orphaned_trips (find_orphaned_trips db) db.

(** [remove_orphaned_routes] *)
Definition find_orphaned_routes (db : store) : gset string :=
  list_to_set
    (Routes.route_id <$>
       filter (λ r, Routes.route_id r ∉ (Trips.route_id <$> trips db))
              (routes db)).

Definition delete_orphaned_routes (route_ids : gset string) (db : store)
  : option store :=
  let sql_params := Sql.sql_params (size route_ids) in
  routes' ← Sql.delete_in Routes.route_id sql_params (elements route_ids) (routes db);
  Some {| routes := routes'; stops := stops db; stop_times := stop_times db;
          trips := trips db; cache_stop_routes := cache_stop_routes db |}.

Definition remove_orphaned_routes (db : store) : option store :=
  delete_orphaned_routes (find_orphaned_routes db) db.

(** The three sweeps in the order of [generate_transport_database]. *)
Definition orphan_sweeps (db : store) : option store :=
  db ← remove_orphaned_stop_times db;
  db ← remove_orphaned_trips db;
  remove_orphaned_routes db.

(** The state the sweeps are meant to reach. *)
Definition no_orphans (db : store) : Prop :=
  (∀ st, st ∈ stop_times db →
         ∃ s, s ∈ stops db ∧ Stops.stop_id s = StopTimes.stop_id st)
  ∧ (∀ t, t ∈ trips db →
          ∃ st, st ∈ stop_times db ∧ StopTimes.trip_id st = Trips.trip_id t)
  ∧ (∀ r, r ∈ routes db →
          ∃ t, t ∈ trips db ∧ Trips.route_id t = Routes.route_id r).

(** The identifiers [remove_atoumod_duplicates] deletes: those of the
    AtouMod routes whose long name is one of the two forms of the long
    name of a Reseau Astuce route. *)
Definition atoumod_duplicate (db : store) (id : string) : Prop :=
  ∃ d q,
    d ∈ routes db ∧ Routes.route_id d = id
    ∧ Sql.like id "ATM-%" = true
    ∧ q ∈ routes db ∧ Sql.like (Routes.route_id q) "AST-%" = true
    ∧ (Routes.route_long_name d = Py.replace "<>" "" (Routes.route_long_name q)
       ∨ Routes.route_long_name d = Py.replace "<>" "/" (Routes.route_long_name q)).

(** ** ProximityEngine: clustering of the transit rows *)

(** A row of [find_stations]: the join of [stops], [cache_stop_routes]
    and [routes] within the radius, ordered by distance then school. *)
Module StationRow.
Record row := {
  id : string;
  stop_name : string;
  route_short_name : string;
  route_long_name : string;
  school : Z;
  lat : Q;
  lon : Q;
  distance : Q
}.
End StationRow.

(** An entry of a group's ['points'] list. *)
Module Point.
Record t := {
  name : string;
  long_name : string;
  school : bool;
  type : string
}.
End Point.

(** The value [near_points] holds for a stop name. *)
Module Group.
Record t := {
  points : list Point.t;
  distance_min : Z;
  distance_max : Z
}.
End Group.

(** [int(x)] on a float: truncation towards zero *)
Definition int_of_float (x : Q) : Z := Z.quot (Qnum x) (Z.pos (Qden x)).

(** [bool(int(row['school']))] *)
Definition is_school (row : StationRow.row) : bool :=
  negb (Z.eqb (StationRow.school row) 0).

(** The body of the loop of [prepare_stations], on the pair of
    [near_points] and [used].  The tuple [(route_short_name, 0)] the loop
    looks up equals [(route_short_name, False)]. *)
Definition prepare_station
    (state : gmap string Group.t * gset (string * bool))
    (row : StationRow.row) : gmap string Group.t * gset (string * bool) :=
  let (near_points, used) := state in
  let route_short_name := StationRow.route_short_name row in
  let school := is_school row in
  if bool_decide ((route_short_name, school) ∈ used) then state
  else if school && bool_decide ((route_short_name, false) ∈ used) then state
  else
    let distance := int_of_float (StationRow.distance row) in
    let stop_name := StationRow.stop_name row in
    let route_long_name := StationRow.route_long_name row in
    let atoumod := Py.startswith (StationRow.id row) "ATM-" in
    let near_points :=
      match near_points !! stop_name with
      | Some _ => near_points
      | None =>
          <[stop_name := {| Group.points := []; Group.distance_min := distance;
                            Group.distance_max := distance |}]> near_points
      end in
    let near_points :=
      alter (λ g, {| Group.points := Group.points g;
                     Group.distance_min := Z.min (Group.distance_min g) distance;
                     Group.distance_max := Group.distance_max g |})
            stop_name near_points in
    let near_points :=
      alter (λ g, {| Group.points := Group.points g;
                     Group.distance_min := Group.distance_min g;
                     Group.distance_max := Z.max (Group.distance_max g) distance |})
            stop_name near_points in
    let used := {[ (route_short_name, school) ]} ∪ used in
    let near_points :=
      alter (λ g, {| Group.points :=
                       Group.points g ++
                         [ {| Point.name := route_short_name;
                              Point.long_name := route_long_name;
                              Point.school := school;
                              Point.type := if atoumod then "atoumod" else "astuce" |} ];
                     Group.distance_min := Group.distance_min g;
                     Group.distance_max := Group.distance_max g |})
            stop_name near_points in
    (near_points, used).

(** [prepare_stations], on the rows [find_stations] returned *)
Definition prepare_stations (rows : list StationRow.row) : gmap string Group.t :=
  (foldl prepare_station (∅, ∅) rows).1.

(** A key is covered once [used] makes the loop skip a row that has it. *)
Definition covered (used : gset (string * bool)) (route_short_name : string)
    (school : bool) : Prop :=
  (route_short_name, school) ∈ used
  ∨ (school = true ∧ (route_short_name, false) ∈ used).

(** Two stops of different names served by the same regular route. *)
Definition row_gare : StationRow.row :=
  {| StationRow.id := "AST-1"; StationRow.stop_name := "Gare";
     StationRow.route_short_name := "T1"; StationRow.route_long_name := "A <> B";
     StationRow.school := 0; StationRow.lat := 49.44; StationRow.lon := 1.09;
     StationRow.distance := 10.7 |}.
Definition row_mairie : StationRow.row :=
  {| StationRow.id := "AST-2"; StationRow.stop_name := "Mairie";
     StationRow.route_short_name := "T1"; StationRow.route_long_name := "A <> B";
     StationRow.school := 0; StationRow.lat := 49.45; StationRow.lon := 1.09;
     StationRow.distance := 120.2 |}.


(** ** ProximityEngine: distance and direction

    The floats of this part go through [sin], [cos], [asin] and [sqrt];
    they are read as real numbers.  [math.sqrt] and [math.asin] raise
    [ValueError] outside their domains. *)

Section Geometry.

Local Open Scope R_scope.

Definition EARTH_DIAMETER : R := 12742000.

(** [math.radians] *)
Definition radians (x : R) : R := x * PI / 180.

(** [a < b] on floats read as reals *)
Definition real_lt (a b : R) : bool := if Rlt_dec a b then true else false.

(** [math.sqrt] *)
Definition math_sqrt (x : R) : option R :=
  if real_lt x 0 then None else Some (sqrt x).

(** [math.asin] *)
Definition math_asin (x : R) : option R :=
  if real_lt x (-1) then None
  else if real_lt 1 x then None
  else Some (asin x).

(** [int(x)]: truncation towards zero *)
Definition int_of_real (x : R) : Z :=
  if Rle_dec 0 x then Int_part x else (- Int_part (- x))%Z.

(** [gps_distance] *)
Definition gps_distance (lat1 lon1 lat2 lon2 : R) : option R :=
  root ← math_sqrt (sin ((lat2 - lat1) / 2) ^ 2
                    + cos lat1 * cos lat2 * sin ((lon2 - lon1) / 2) ^ 2);
  angle ← math_asin root;
  Some (EARTH_DIAMETER * angle).

(** [compare_positions] of [nearby-python-serve.py] *)
Definition compare_positions (lat1 lon1 lat2 lon2 : R) : option (Z * string) :=
  let lat1 := radians lat1 in
  let lon1 := radians lon1 in
  let lat2 := radians lat2 in
  let lon2 := radians lon2 in
  distance ← gps_distance lat1 lon1 lat2 lon2;
  if real_lt distance 5 then Some (int_of_real distance, "")
  else
    (* Split the Earth in 8 directions *)
    let sin_angle := sin (radians (45 / 2)) in
    lon_asin ← math_asin (lon2 - lon1);
    let lon_angle := lon_asin * EARTH_DIAMETER / distance in
    lat_asin ← math_asin (lat2 - lat1);
    let lat_angle := lat_asin * EARTH_DIAMETER / distance in
    let direction := "" in
    let direction :=
      if real_lt 0 lat_angle && real_lt sin_angle lat_angle
      then direction +:+ "N"
      else if real_lt lat_angle 0 && real_lt lat_angle (- sin_angle)
      then direction +:+ "S"
      else direction in
    let direction :=
      if real_lt 0 lon_angle && real_lt sin_angle lon_angle
      then direction +:+ "E"
      else if real_lt lon_angle 0 && real_lt lon_angle (- sin_angle)
      then direction +:+ "W"
      else direction in
    Some (int_of_real distance, direction).

(** The label of one axis: the offset projected on the axis against
    the sine of 22.5 degrees. *)
Definition axis_label (angle : R) (positive negative : string) : string :=
  if real_lt (sin (radians (45 / 2))) angle then positive
  else if real_lt angle (- sin (radians (45 / 2))) then negative
  else "".

(** The eight octants and the empty label. *)
Definition compass_labels : list string :=
  [""; "N"; "S"; "E"; "W"; "NE"; "NW"; "SE"; "SW"].

(** The latitude, in degrees, of the point 100 m north of the
    equator on the sphere of the model. *)
Definition north_100m : R := 200 / EARTH_DIAMETER * 180 / PI.

End Geometry.


(** ** Sample stores *)

(** One stop and one route shared by a removed and a surviving trip. *)
Definition shared_store : store := {|
  routes := [ {| Routes.route_id := "AST-R1"; Routes.route_short_name := "T1";
                 Routes.route_long_name := "A <> B" |} ];
  stops := [ {| Stops.stop_id := "AST-S1"; Stops.stop_name := "Gare";
                Stops.stop_lat := 0; Stops.stop_lon := 0 |} ];
  stop_times := [ {| StopTimes.trip_id := "AST-T1"; StopTimes.stop_id := "AST-S1" |};
                  {| StopTimes.trip_id := "AST-T2"; StopTimes.stop_id := "AST-S1" |} ];
  trips := [ {| Trips.trip_id := "AST-T1"; Trips.route_id := "AST-R1";
                Trips.service_id := "AST-ASCESC1" |};
             {| Trips.trip_id := "AST-T2"; Trips.route_id := "AST-R1";
                Trips.service_id := "AST-HIVER" |} ];
  cache_stop_routes := [ {| CacheStopRoutes.stop_id := "AST-S1";
                            CacheStopRoutes.route_id := "AST-R1";
                            CacheStopRoutes.school := false |} ]
|}.

(** A Reseau Astuce route "A <> B" next to AtouMod routes named with a
    bare slash, with a spaced slash and with a double space. *)
Definition astuce_a_b : Routes.row :=
  {| Routes.route_id := "AST-1"; Routes.route_short_name := "T1";
     Routes.route_long_name := "A <> B" |}.
Definition atoumod_bare_slash : Routes.row :=
  {| Routes.route_id := "ATM-1"; Routes.route_short_name := "1";
     Routes.route_long_name := "A/B" |}.
Definition atoumod_spaced_slash : Routes.row :=
  {| Routes.route_id := "ATM-2"; Routes.route_short_name := "2";
     Routes.route_long_name := "A / B" |}.
Definition atoumod_double_space : Routes.row :=
  {| Routes.route_id := "ATM-3"; Routes.route_short_name := "3";
     Routes.route_long_name := "A  B" |}.

Definition slash_store : store := {|
  routes := [astuce_a_b; atoumod_bare_slash; atoumod_spaced_slash;
             atoumod_double_space];
  stops := [];
  stop_times := [];
  trips := [ {| Trips.trip_id := "ATM-T1"; Trips.route_id := "ATM-1";
                Trips.service_id := "ATM-S" |};
             {| Trips.trip_id := "ATM-T2"; Trips.route_id := "ATM-2";
                Trips.service_id := "ATM-S" |} ];
  cache_stop_routes := [ {| CacheStopRoutes.stop_id := "ATM-S1";
                            CacheStopRoutes.route_id := "ATM-1";
                            CacheStopRoutes.school := false |};
                         {| CacheStopRoutes.stop_id := "ATM-S1";
                            CacheStopRoutes.route_id := "ATM-3";
                            CacheStopRoutes.school := false |} ]
|}.

(** Two feeds importing a record with the same raw identifier. *)
Definition sample_route_record : dict :=
  [("route_id", VStr "12"); ("agency_id", VStr "1");
   ("route_short_name", VStr "T1"); ("route_long_name", VStr "A <> B");
   ("route_color", VStr "FF0000")].


(** A [float] that reads the few literals of the samples below. *)
Definition sample_float (s : string) : option binary64 :=
  if String.eqb s "49.25066" then Some 49.25066%float
  else if String.eqb s "0.77446" then Some 0.77446%float
  else if String.eqb s "49.44" then Some 49.44%float
  else if String.eqb s "1.09" then Some 1.09%float
  else if String.eqb s "nan" then Some nan
  else None.

(** A stop on the south-west corner of the bounding box. *)
Definition corner_stop_row : dict :=
  [("stop_id", VStr "7"); ("stop_name", VStr "x");
   ("stop_lat", VStr "49.25066"); ("stop_lon", VStr "0.77446")].

(** A stop whose latitude reads as NaN. *)
Definition nan_stop_row : dict :=
  [("stop_id", VStr "8"); ("stop_name", VStr "x");
   ("stop_lat", VStr "nan"); ("stop_lon", VStr "0.77446")].

(** A correction that changes letter case only. *)
Definition case_only (c : string * string) : Prop := Py.lower c.1 = Py.lower c.2.

(** A correction list of one pair whose two strings share nothing. *)
Definition lone_correction : list (string * string) := [("X", "y")].

(** Substring test, [sub in s]. *)
Fixpoint contains (sub s : string) : bool :=
  String.prefix sub s
  || match s with
     | EmptyString => false
     | String _ s' => contains sub s'
     end.

(** A chained substring collision: the text a correction writes holds
    the text a correction looks for, or the text two different
    corrections look for overlap as substrings. *)
Definition chained_collision (corrections : list (string * string)) : Prop :=
  ∃ c1 c2, c1 ∈ corrections ∧ c2 ∈ corrections
           ∧ (contains c2.1 c1.2 = true
              ∨ (c1 ≠ c2 ∧ contains c2.1 c1.1 = true)).


(** The steps of [generate_transport_database] that work on the tables
    of the store once the feeds are imported and the cache is built:
    duplicates, elevators, then the three sweeps.  (The conversion of
    calendar_dates, run between the first two, reads and writes the
    calendar tables only.) *)
Definition reconciliation_steps (db : store) : option store :=
  db ← remove_atoumod_duplicates db;
  db ← remove_elevators db;
  orphan_sweeps db.

(** The trips [remove_elevators] looks for. *)
Definition elevator_trip (t : Trips.row) : Prop :=
  Sql.like (Trips.service_id t) "AST-ASCESC%"
  || Sql.like (Trips.service_id t) "AST-___ASC" = true.

(** The stops [remove_elevators] deletes by identifier. *)
Definition elevator_stop (s : Stops.row) : Prop :=
  Sql.like (Stops.stop_id s) "AST-___ASC" = true.

(** The label of the opposite direction: north and south, east and west
    change places. *)
Fixpoint opposite (direction : string) : string :=
  match direction with
  | EmptyString => EmptyString
  | String c direction' =>
      String (if Ascii.eqb c "N" then "S"%char
              else if Ascii.eqb c "S" then "N"%char
              else if Ascii.eqb c "E" then "W"%char
              else if Ascii.eqb c "W" then "E"%char
              else c)
             (opposite direction')
  end.

(** ** ProximityEngine: clustering of the cycle rows *)

(** A row of [find_cycle_stops]; [cycle_name] is NULL for the facilities
    of the cycling file. *)
Module CycleRow.
Record row := {
  id : string;
  name : option string;
  type : Z;
  free : Z;
  lat : Q;
  lon : Q;
  distance : Q
}.
End CycleRow.

(** An entry of a cycle group's ['points'] list. *)
Module CyclePoint.
Record t := {
  type : Z;
  name : option string;
  free : bool;
  distance : Z
}.
End CyclePoint.

Module CycleGroup.
Record t := {
  points : list CyclePoint.t;
  distance_min : Z;
  distance_max : Z
}.
End CycleGroup.

(** The body of the loop of [prepare_cycle_stops].  The direction is
    computed and dropped; the call still raises when
    [compare_positions] does. *)
Definition prepare_cycle_stop (latitude longitude : Q)
    (near_points : gmap (option string) CycleGroup.t) (row : CycleRow.row)
  : option (gmap (option string) CycleGroup.t) :=
  let distance := int_of_float (CycleRow.distance row) in
  let stop_name := CycleRow.name row in
  let stop_type := CycleRow.type row in
  let stop_free := negb (Z.eqb (CycleRow.free row) 0) in
  let stop_latitude := CycleRow.lat row in
  let stop_longitude := CycleRow.lon row in
  direction ← compare_positions (Q2R latitude) (Q2R longitude)
                (Q2R stop_latitude) (Q2R stop_longitude);
  let near_points :=
    match near_points !! stop_name with
    | Some _ => near_points
    | None =>
        <[stop_name := {| CycleGroup.points := [];
                          CycleGroup.distance_min := distance;
                          CycleGroup.distance_max := distance |}]> near_points
    end in
  Some (alter (λ g, {| CycleGroup.points :=
                         CycleGroup.points g ++
                           [ {| CyclePoint.type := stop_type;
                                CyclePoint.name := stop_name;
                                CyclePoint.free := stop_free;
                                CyclePoint.distance := distance |} ];
                       CycleGroup.distance_min := CycleGroup.distance_min g;
                       CycleGroup.distance_max := CycleGroup.distance_max g |})
              stop_name near_points).

(** The loop of [prepare_cycle_stops] from a given [near_points] on. *)
Fixpoint prepare_cycle_rows (latitude longitude : Q)
    (near_points : gmap (option string) CycleGroup.t) (rows : list CycleRow.row)
  : option (gmap (option string) CycleGroup.t) :=
  match rows with
  | [] => Some near_points
  | row :: rows' =>
      near_points ← prepare_cycle_stop latitude longitude near_points row;
      prepare_cycle_rows latitude longitude near_points rows'
  end.

(** [prepare_cycle_stops], on the rows [find_cycle_stops] returned *)
Definition prepare_cycle_stops (latitude longitude : Q)
    (rows : list CycleRow.row) : option (gmap (option string) CycleGroup.t) :=
  prepare_cycle_rows latitude longitude ∅ rows.

(** The entry [prepare_stations] appends for a row. *)
Definition station_point (row : StationRow.row) : Point.t :=
  {| Point.name := StationRow.route_short_name row;
     Point.long_name := StationRow.route_long_name row;
     Point.school := is_school row;
     Point.type := if Py.startswith (StationRow.id row) "ATM-"
                   then "atoumod" else "astuce" |}.

(** The entry [prepare_cycle_stops] appends for a row. *)
Definition cycle_point (row : CycleRow.row) : CyclePoint.t :=
  {| CyclePoint.type := CycleRow.type row;
     CyclePoint.name := CycleRow.name row;
     CyclePoint.free := negb (Z.eqb (CycleRow.free row) 0);
     CyclePoint.distance := int_of_float (CycleRow.distance row) |}.

(** What the loop keeps true of [near_points] and [used]: the key of
    every entry is in [used], and no two entries have the same key. *)
Definition keys_once (state : gmap string Group.t * gset (string * bool)) : Prop :=
  (∀ name g p, state.1 !! name = Some g → p ∈ Group.points g →
               (Point.name p, Point.school p) ∈ state.2)
  ∧ (∀ name1 name2 g1 g2 i j p1 p2,
       state.1 !! name1 = Some g1 → state.1 !! name2 = Some g2 →
       Group.points g1 !! i = Some p1 → Group.points g2 !! j = Some p2 →
       Point.name p1 = Point.name p2 → Point.school p1 = Point.school p2 →
       name1 = name2 ∧ i = j).

(** What the loop of [prepare_cycle_stops] keeps true of a group: its
    two distances are the distance of its first entry. *)
Definition cycle_groups_frozen
    (near_points : gmap (option string) CycleGroup.t) : Prop :=
  ∀ name g, near_points !! name = Some g →
    ∃ p rest,
      CycleGroup.points g = p :: rest
      ∧ CycleGroup.distance_min g = CyclePoint.distance p
      ∧ CycleGroup.distance_max g = CyclePoint.distance p.

(** A rack at the very point the query is made from. *)
Definition cycle_row_here : CycleRow.row :=
  {| CycleRow.id := "CYC-1"; CycleRow.name := None; CycleRow.type := 3;
     CycleRow.free := 1; CycleRow.lat := 49.44; CycleRow.lon := 1.09;
     CycleRow.distance := 0 |}.

(** ** FeedImporter: the corrections file and the bike-share feed *)

(** [s.count(c)] for a character [c] *)
Fixpoint count_char (c : ascii) (s : string) : nat :=
  match s with
  | EmptyString => 0
  | String c' s' => (if Ascii.eqb c' c then 1 else 0) + count_char c s'
  end.

(** The tabulation, ["\t"]. *)
Definition tab : ascii := "009"%char.

(** [load_corrections], on the lines [read().splitlines()] gives: the
    lines that hold a tabulation, each split at its tabulations. *)
Definition load_corrections (lines : list string) : list (list string) :=
  Py.split tab <$> filter (λ line, Py.contains_char tab line = true) lines.

(** [for [bad, good] in CORRECTIONS]: the unpacking of an entry, a
    [ValueError] being [None]. *)
Definition unpack_correction (entry : list string) : option (string * string) :=
  match entry with
  | [bad; good] => Some (bad, good)
  | _ => None
  end.

Section Lovelo.

Variable float : string -> option binary64.
Variable radians : binary64 -> binary64.
Variable case_table : Py.case_table.
Variable CORRECTIONS : list (string * string).

(** The record [import_lovelo] builds from one station of the feed. *)
Definition lovelo_stop (row : dict) : option dict :=
  cycle_id ← dict_get "station_id" row;
  cycle_name ← dict_get "name" row ≫= normalize_value case_table CORRECTIONS;
  cycle_lat ← dict_get "lat" row ≫= float_of_value float;
  cycle_lon ← dict_get "lon" row ≫= float_of_value float;
  Some [("cycle_id", cycle_id);
        ("cycle_name", cycle_name);
        ("cycle_lat", VFloat (radians cycle_lat));
        ("cycle_lon", VFloat (radians cycle_lon));
        ("cycle_type", VInt (derive_cycle_type (VStr "LOVELO")));
        ("cycle_free", VInt (derive_cycle_free (VStr "PAYANT")))].

(** [import_lovelo]: the rows handed to [INSERT]. *)
Definition import_lovelo (lovelo_data : list dict) : option (list dict) :=
  lovelo_stops ← mapM lovelo_stop lovelo_data;
  import_table "cycle_stops" "LOV-" lovelo_stops.

End Lovelo.

(** What the two tests of the stops loop let through: a coordinate
    that is between the two bounds, bounds included, or is NaN, of
    which every comparison is false. *)
Definition passes_bounds (low high x : binary64) : Prop :=
  PrimFloat.is_nan x = true ∨ float_between low high x.

(** The two coordinates of a stop row pass the tests of the loop. *)
Definition passes_bounding_box (latitude longitude : binary64) : Prop :=
  passes_bounds MIN_LATITUDE MAX_LATITUDE latitude
  ∧ passes_bounds MIN_LONGITUDE MAX_LONGITUDE longitude.

(** A field of a record is kept by [import_table]. *)
Definition kept_field (table_name key : string) : Prop :=
  (key ∉ FIELD_DROPS) ∧ (table_name +:+ "." +:+ key ∉ FIELD_DROPS).

(** What [import_table] makes of one kept field. *)
Definition imported_field (base_id : string) (field field' : string * value)
  : Prop :=
  field'.1 = field.1
  ∧ if bool_decide (field.1 ∈ FIELD_IDS)
    then ∃ s, field.2 = VStr s ∧ field'.2 = VStr (base_id +:+ s)
    else field'.2 = field.2.

(** The stop the loop of [import_gtfs_data] makes of a row it keeps. *)
Definition imported_stop (float : string → option binary64) (radians : binary64 → binary64)
    (case_table : Py.case_table) (CORRECTIONS : list (string * string))
    (row stop : dict) : Prop :=
  ∃ latitude longitude,
    dict_get "stop_lat" row ≫= float_of_value float = Some latitude
    ∧ dict_get "stop_lon" row ≫= float_of_value float = Some longitude
    ∧ passes_bounding_box latitude longitude
    ∧ dict_get "stop_lat" stop = Some (VFloat (radians latitude))
    ∧ dict_get "stop_lon" stop = Some (VFloat (radians longitude))
    ∧ dict_get "stop_name" stop
      = dict_get "stop_name" row ≫= normalize_value case_table CORRECTIONS
    ∧ ∀ key, key ≠ "stop_lat" → key ≠ "stop_lon" → key ≠ "stop_name" →
             dict_get key stop = dict_get key row.

(** A facility record of the cycling file, as inserted. *)
Definition cycling_record (record : dict) : Prop :=
  ∃ id t f,
    dict_get "cycle_id" record = Some (VStr ("CYC-" +:+ id))
    ∧ dict_get "cycle_name" record = Some VNone
    ∧ dict_get "cycle_type" record = Some (VInt t) ∧ (-1 <= t <= 4)%Z
    ∧ dict_get "cycle_free" record = Some (VInt f) ∧ (f = 0 ∨ f = 1)%Z.

(** A station record of the bike-share feed, as inserted. *)
Definition lovelo_record (record : dict) : Prop :=
  ∃ id name,
    dict_get "cycle_id" record = Some (VStr ("LOV-" +:+ id))
    ∧ dict_get "cycle_name" record = Some (VStr name)
    ∧ dict_get "cycle_type" record = Some (VInt 4)
    ∧ dict_get "cycle_free" record = Some (VInt 0).

(** A row of the cycling file and a station of the bike-share feed with
    the same raw identifier. *)
Definition cycling_row : dict :=
  [("id_local", VStr "7"); ("coordonneesxy", VStr "(1.09,49.44)");
   ("mobilier", VStr "ARCEAU"); ("acces", VStr "LIBRE ACCES")].
Definition lovelo_station : dict :=
  [("station_id", VStr "7"); ("name", VStr "gare"); ("lat", VFloat 49.44);
   ("lon", VFloat 1.09)].


(** A store with an elevator (a stop, a trip and a route of its own)
    and a stop_time whose stop is not in the store. *)
Definition elevator_store : store := {|
  routes := [ {| Routes.route_id := "AST-R1"; Routes.route_short_name := "T1";
                 Routes.route_long_name := "A <> B" |};
              {| Routes.route_id := "AST-R2"; Routes.route_short_name := "ASC";
                 Routes.route_long_name := "Ascenseur" |} ];
  stops := [ {| Stops.stop_id := "AST-S1"; Stops.stop_name := "Gare";
                Stops.stop_lat := 0; Stops.stop_lon := 0 |};
             {| Stops.stop_id := "AST-123ASC"; Stops.stop_name := "Ascenseur";
                Stops.stop_lat := 0; Stops.stop_lon := 0 |} ];
  stop_times := [ {| StopTimes.trip_id := "AST-T1"; StopTimes.stop_id := "AST-123ASC" |};
                  {| StopTimes.trip_id := "AST-T2"; StopTimes.stop_id := "AST-S1" |};
                  {| StopTimes.trip_id := "AST-T3"; StopTimes.stop_id := "AST-S9" |} ];
  trips := [ {| Trips.trip_id := "AST-T1"; Trips.route_id := "AST-R2";
                Trips.service_id := "AST-ASCESC1" |};
             {| Trips.trip_id := "AST-T2"; Trips.route_id := "AST-R1";
                Trips.service_id := "AST-HIVER" |} ];
  cache_stop_routes := [ {| CacheStopRoutes.stop_id := "AST-S1";
                            CacheStopRoutes.route_id := "AST-R1";
                            CacheStopRoutes.school := false |};
                         {| CacheStopRoutes.stop_id := "AST-123ASC";
                            CacheStopRoutes.route_id := "AST-R2";
                            CacheStopRoutes.school := false |} ]
|}.

(** The same store without the elevator; the stop_times are all there. *)
Definition elevator_store_cleared : store := {|
  routes := [ {| Routes.route_id := "AST-R1"; Routes.route_short_name := "T1";
                 Routes.route_long_name := "A <> B" |} ];
  stops := [ {| Stops.stop_id := "AST-S1"; Stops.stop_name := "Gare";
                Stops.stop_lat := 0; Stops.stop_lon := 0 |} ];
  stop_times := stop_times elevator_store;
  trips := [ {| Trips.trip_id := "AST-T2"; Trips.route_id := "AST-R1";
                Trips.service_id := "AST-HIVER" |} ];
  cache_stop_routes := [ {| CacheStopRoutes.stop_id := "AST-S1";
                            CacheStopRoutes.route_id := "AST-R1";
                            CacheStopRoutes.school := false |} ]
|}.

(** And once the stop_times without a stop are gone. *)
Definition elevator_store_swept : store := {|
  routes := routes elevator_store_cleared;
  stops := stops elevator_store_cleared;
  stop_times := [ {| StopTimes.trip_id := "AST-T2"; StopTimes.stop_id := "AST-S1" |} ];
  trips := trips elevator_store_cleared;
  cache_stop_routes := cache_stop_routes elevator_store_cleared
|}.

(** * Properties *)

(** ** The SQL fragment *)

Lemma placeholders_sql_params (n : nat) :
  Sql.placeholders (Sql.sql_params n) = n.
Proof.
  destruct n as [|n]; [reflexivity|].
  unfold Sql.sql_params, Py.join.
  induction n as [|n IH]; [reflexivity|].
  change (replicate (S (S n)) "?") with ("?" :: replicate (S n) "?").
  change (String.concat "," ("?" :: replicate (S n) "?"))
    with ("?" +:+ "," +:+ String.concat "," (replicate (S n) "?")).
  assert (Hstep : ∀ s, Sql.placeholders ("?" +:+ "," +:+ s)
                        = S (Sql.placeholders s)) by reflexivity.
  rewrite Hstep, IH. reflexivity.
Qed.

Lemma bound_length (params : list string) :
  Sql.bound (Sql.sql_params (length params)) params = Some tt.
Proof.
  unfold Sql.bound. rewrite placeholders_sql_params, Nat.eqb_refl. reflexivity.
Qed.

Lemma bound_size (ids : gset string) :
  Sql.bound (Sql.sql_params (size ids)) (elements ids) = Some tt.
Proof. apply bound_length. Qed.

Lemma delete_in_length {A} (col : A -> string) params (table : list A) :
  Sql.delete_in col (Sql.sql_params (length params)) params table
  = Some (filter (λ r, col r ∉ params) table).
Proof. unfold Sql.delete_in. rewrite bound_length. reflexivity. Qed.

Lemma select_in_length {A B} (out : A -> B) (col : A -> string) params
    (table : list A) :
  Sql.select_in out col (Sql.sql_params (length params)) params table
  = Some (out <$> filter (λ r, col r ∈ params) table).
Proof. unfold Sql.select_in. rewrite bound_length. reflexivity. Qed.

Lemma delete_in_size {A} (col : A -> string) (ids : gset string)
    (table : list A) :
  Sql.delete_in col (Sql.sql_params (size ids)) (elements ids) table
  = Some (filter (λ r, col r ∉ ids) table).
Proof.
  unfold Sql.delete_in. rewrite bound_size. cbn. f_equal.
  apply list_filter_iff. intros r. by rewrite elem_of_elements.
Qed.

Lemma filter_all {A} (P : A -> Prop) `{!∀ x, Decision (P x)} (l : list A) :
  (∀ x, x ∈ l → P x) → filter P l = l.
Proof.
  induction l as [|x l IH]; intros Hall; [reflexivity|].
  rewrite filter_cons_True by (apply Hall; left).
  f_equal. apply IH. intros y Hy. apply Hall. by right.
Qed.

(** ** The cascading deletes *)

Lemma remove_trips_eq (trip_ids : list string) (db : store) :
  remove_trips trip_ids db =
  let stop_ids : gset string :=
    list_to_set (StopTimes.stop_id <$>
                   filter (λ st, StopTimes.trip_id st ∈ trip_ids) (stop_times db)) in
  let route_ids : gset string :=
    list_to_set (Trips.route_id <$>
                   filter (λ t, Trips.trip_id t ∈ trip_ids) (trips db)) in
  Some {| routes := filter (λ r, Routes.route_id r ∉ route_ids) (routes db);
          stops := filter (λ s, Stops.stop_id s ∉ stop_ids) (stops db);
          stop_times := stop_times db;
          trips := filter (λ t, Trips.trip_id t ∉ trip_ids) (trips db);
          cache_stop_routes :=
            filter (λ c, CacheStopRoutes.stop_id c ∉ stop_ids) (cache_stop_routes db) |}.
Proof.
  unfold remove_trips.
  rewrite !select_in_length. cbn.
  rewrite delete_in_length. cbn.
  rewrite !delete_in_size. cbn. reflexivity.
Qed.

Lemma store_eta (db : store) :
  {| routes := routes db; stops := stops db; stop_times := stop_times db;
     trips := trips db; cache_stop_routes := cache_stop_routes db |} = db.
Proof. by destruct db. Qed.

(** C1. Every cascading delete of the reconciler, run on an empty set of
    identifiers, raises no error and returns the store as it was: trip
    removal, the search for and the deletion of duplicate routes, and
    the three orphan deletions.  The statement issued then has no host
    parameter and the empty list [IN ()], which SQLite accepts and which
    matches no row; no separate guard is involved. *)
Theorem empty_identifier_set_is_noop (db : store) :
  Sql.sql_params (length (@nil string)) = ""
  ∧ remove_trips [] db = Some db
  ∧ find_atoumod_routes [] db = Some []
  ∧ delete_atoumod_routes [] db = Some db
  ∧ delete_orphaned_stop_times ∅ db = Some db
  ∧ delete_orphaned_trips ∅ db = Some db
  ∧ delete_orphaned_routes ∅ db = Some db.
Proof.
  assert (Hnone : ∀ A (col : A → string) (l : list A),
             filter (λ r, col r ∈ @nil string) l = []).
  { intros A col l. induction l as [|x l IH]; [done|].
    rewrite filter_cons_False by apply not_elem_of_nil. exact IH. }
  split; [reflexivity|]. repeat split.
  - rewrite remove_trips_eq. cbv zeta. rewrite !Hnone.
    change (list_to_set (_ <$> [])) with (∅ : gset string).
    destruct db; cbn; do 2 f_equal; apply filter_all; intros ? _;
      (apply not_elem_of_nil || apply not_elem_of_empty).
  - unfold find_atoumod_routes. rewrite select_in_length, Hnone. done.
  - unfold delete_atoumod_routes. rewrite !delete_in_length. cbn.
    destruct db; cbn; do 2 f_equal; apply filter_all; intros ? _;
      apply not_elem_of_nil.
  - unfold delete_orphaned_stop_times. rewrite delete_in_size. cbn.
    destruct db; cbn; do 2 f_equal; apply filter_all; intros ? _;
      apply not_elem_of_empty.
  - unfold delete_orphaned_trips. rewrite delete_in_size. cbn.
    destruct db; cbn; do 2 f_equal; apply filter_all; intros ? _;
      apply not_elem_of_empty.
  - unfold delete_orphaned_routes. rewrite delete_in_size. cbn.
    destruct db; cbn; do 2 f_equal; apply filter_all; intros ? _;
      apply not_elem_of_empty.
Qed.


Example remove_trips_shared :
  remove_trips ["AST-T1"] shared_store =
  Some {| routes := []; stops := [];
          stop_times := stop_times shared_store;
          trips := [ {| Trips.trip_id := "AST-T2"; Trips.route_id := "AST-R1";
                        Trips.service_id := "AST-HIVER" |} ];
          cache_stop_routes := [] |}.
Proof. vm_compute. reflexivity. Qed.

(** ** The orphan sweeps *)


(** ** Duplicate routes of the two feeds *)


Lemma find_atoumod_routes_elem (db : store) (id : string) :
  ∃ route_ids,
    find_atoumod_routes (find_astuce_long_names db) db = Some route_ids
    ∧ (id ∈ route_ids ↔ atoumod_duplicate db id).
Proof.
  unfold find_atoumod_routes. rewrite select_in_length.
  eexists. split; [reflexivity|].
  rewrite list_elem_of_fmap. unfold atoumod_duplicate, find_astuce_long_names.
  split.
  - intros (d & -> & [Hname [Hatm Hd]%list_elem_of_filter]%list_elem_of_filter).
    apply list_elem_of_bind in Hname as (q & Hforms & [Hast Hq]%list_elem_of_filter).
    exists d, q. repeat split; try done.
    apply elem_of_cons in Hforms as [?|Hforms]; [by left|].
    apply elem_of_cons in Hforms as [?|Hforms]; [by right|].
    by apply not_elem_of_nil in Hforms.
  - intros (d & q & Hd & <- & Hatm & Hq & Hast & Hforms).
    exists d. split; [done|].
    apply list_elem_of_filter. split; [|by apply list_elem_of_filter].
    apply list_elem_of_bind. exists q. split; [|by apply list_elem_of_filter].
    destruct Hforms as [->| ->]; [left|right; left].
Qed.




Lemma remove_atoumod_duplicates_deleted (db : store) :
  ∃ db',
    remove_atoumod_duplicates db = Some db'
    ∧ (∀ r, r ∈ routes db' ↔
            r ∈ routes db ∧ ¬ atoumod_duplicate db (Routes.route_id r))
    ∧ (∀ t, t ∈ trips db' ↔
            t ∈ trips db ∧ ¬ atoumod_duplicate db (Trips.route_id t))
    ∧ (∀ c, c ∈ cache_stop_routes db' ↔
            c ∈ cache_stop_routes db
            ∧ ¬ atoumod_duplicate db (CacheStopRoutes.route_id c))
    ∧ stops db' = stops db
    ∧ stop_times db' = stop_times db.
Proof.
  unfold remove_atoumod_duplicates.
  destruct (find_atoumod_routes_elem db "") as (route_ids & Hfind & _).
  rewrite Hfind. cbn. unfold delete_atoumod_routes.
  rewrite !delete_in_length. cbn.
  assert (Hids : ∀ id, id ∈ route_ids ↔ atoumod_duplicate db id).
  { intros id. destruct (find_atoumod_routes_elem db id) as (ids & Hfind' & Hid).
    rewrite Hfind in Hfind'. by injection Hfind' as <-. }
  eexists. split; [reflexivity|]. cbn.
  split; [|split; [|split; [|split; reflexivity]]].
  - intros r. rewrite list_elem_of_filter, Hids. tauto.
  - intros t. rewrite list_elem_of_filter, Hids. tauto.
  - intros c. rewrite list_elem_of_filter, Hids. tauto.
Qed.




(** ** FeedNamespacer *)

Lemma string_app_cons (c : ascii) (a b : string) :
  String c a +:+ b = String c (a +:+ b).
Proof. reflexivity. Qed.

Lemma string_app_length (a b : string) :
  String.length (a +:+ b) = String.length a + String.length b.
Proof.
  induction a as [|c a IH]; [done|].
  rewrite string_app_cons. cbn [String.length]. by rewrite IH.
Qed.

Lemma string_app_inv_tail (a b r : string) : a +:+ r = b +:+ r → a = b.
Proof.
  revert b. induction a as [|c a IH]; intros [|d b] H; [done| | |].
  - apply (f_equal String.length) in H.
    rewrite !string_app_length in H. cbn in H. lia.
  - apply (f_equal String.length) in H.
    rewrite !string_app_length in H. cbn in H. lia.
  - rewrite !string_app_cons in H. injection H as -> H. f_equal. by apply IH.
Qed.

Lemma contains_char_app (c : ascii) (a b : string) :
  Py.contains_char c (a +:+ b) = Py.contains_char c a || Py.contains_char c b.
Proof.
  induction a as [|d a IH]; [done|].
  rewrite string_app_cons. cbn [Py.contains_char]. rewrite IH.
  by rewrite orb_assoc.
Qed.

Lemma last_char_app (a : string) (c : ascii) (b : string) :
  Py.last_char (a +:+ String c b) = Py.last_char (String c b).
Proof.
  induction a as [|d a IH]; [done|].
  rewrite string_app_cons. cbn [Py.last_char]. rewrite IH.
  destruct a; reflexivity.
Qed.

(** No identifier field is dropped, whatever the table. *)
Lemma field_ids_kept (table_name key : string) :
  key ∈ FIELD_IDS →
  (key ∉ FIELD_DROPS) ∧ (table_name +:+ "." +:+ key ∉ FIELD_DROPS).
Proof.
  intros Hkey. split.
  - unfold FIELD_IDS in Hkey.
    repeat (apply elem_of_cons in Hkey as [->|Hkey];
            [apply (bool_decide_unpack _); vm_compute; exact I|]).
    by apply not_elem_of_nil in Hkey.
  - intros Hin.
    assert (Hdot : Py.contains_char "." (table_name +:+ "." +:+ key) = true).
    { rewrite contains_char_app. apply orb_true_intro. by right. }
    assert (Hlast : Py.last_char (table_name +:+ "." +:+ key) = Some "d"%char).
    { change ("." +:+ key) with (String "." key). rewrite last_char_app.
      unfold FIELD_IDS in Hkey.
      repeat (apply elem_of_cons in Hkey as [->|Hkey]; [reflexivity|]).
      by apply not_elem_of_nil in Hkey. }
    set (x := table_name +:+ "." +:+ key) in *. clearbody x.
    unfold FIELD_DROPS in Hin.
    repeat (apply elem_of_cons in Hin as [->|Hin];
            [first [discriminate Hdot | discriminate Hlast]|]).
    by apply not_elem_of_nil in Hin.
Qed.

Lemma import_table_values_get (table_name base_id key : string)
    (record values : dict) :
  key ∈ FIELD_IDS →
  import_table_values table_name base_id record = Some values →
  dict_get key values = dict_get key record ≫= str_add base_id.
Proof.
  intros Hkey. revert values.
  induction record as [|[k v] record IH]; intros values Hrun.
  - injection Hrun as <-. reflexivity.
  - cbn [import_table_values] in Hrun. cbn [dict_get].
    destruct (String.eqb_spec k key) as [->|Hne].
    + destruct (field_ids_kept table_name key Hkey) as [Hk1 Hk2].
      rewrite !bool_decide_eq_true_2 in Hrun by done. cbn in Hrun.
      destruct (str_add base_id v) as [v'|] eqn:Hv; [|discriminate Hrun].
      cbn in Hrun.
      destruct (import_table_values table_name base_id record); [|discriminate Hrun].
      injection Hrun as <-. cbn. by rewrite String.eqb_refl.
    + destruct (bool_decide (k ∉ FIELD_DROPS)
                && bool_decide (table_name +:+ "." +:+ k ∉ FIELD_DROPS)).
      * destruct (if bool_decide (k ∈ FIELD_IDS) then str_add base_id v else Some v)
          as [v'|]; [|discriminate Hrun].
        cbn in Hrun.
        destruct (import_table_values table_name base_id record) as [values'|];
          [|discriminate Hrun].
        injection Hrun as <-. cbn [dict_get].
        apply String.eqb_neq in Hne. rewrite Hne. by apply IH.
      * by apply IH.
Qed.

(** C7. Two feeds with distinct tags that import records holding the
    same raw identifier in an identifier field store, in that field, the
    tag followed by the raw identifier, and the two stored identifiers
    differ. *)
Theorem namespaced_ids_do_not_collide
    (table1 table2 tag1 tag2 key raw : string) (record1 record2 values1 values2 : dict) :
  tag1 ≠ tag2 →
  key ∈ FIELD_IDS →
  dict_get key record1 = Some (VStr raw) →
  dict_get key record2 = Some (VStr raw) →
  import_table_values table1 tag1 record1 = Some values1 →
  import_table_values table2 tag2 record2 = Some values2 →
  dict_get key values1 = Some (VStr (tag1 +:+ raw))
  ∧ dict_get key values2 = Some (VStr (tag2 +:+ raw))
  ∧ dict_get key values1 ≠ dict_get key values2.
Proof.
  intros Htag Hkey Hraw1 Hraw2 Hrun1 Hrun2.
  rewrite (import_table_values_get _ _ _ _ _ Hkey Hrun1), Hraw1.
  rewrite (import_table_values_get _ _ _ _ _ Hkey Hrun2), Hraw2.
  cbn. repeat split.
  intros Heq. injection Heq as Heq. by apply string_app_inv_tail in Heq.
Qed.

Lemma namespaced_ids_do_not_collide_witness :
  dict_get "route_id" [("route_id", VStr "AST-12"); ("route_short_name", VStr "T1");
                       ("route_long_name", VStr "A <> B")]
  ≠ dict_get "route_id" [("route_id", VStr "ATM-12"); ("route_short_name", VStr "T1");
                         ("route_long_name", VStr "A <> B")].
Proof.
  refine (proj2 (proj2 (namespaced_ids_do_not_collide "routes" "routes" "AST-" "ATM-"
            "route_id" "12" sample_route_record sample_route_record _ _ _ _ _ _ _ _))).
  - discriminate.
  - do 2 right. left.
  - reflexivity.
  - reflexivity.
  - vm_compute. reflexivity.
  - vm_compute. reflexivity.
Defined.

(** ** GeographicFilter *)

(** Order of the binary64 floats, from the specification of the
    comparisons. *)
Lemma SFcompare_antisym (x y : spec_float) :
  SFcompare y x = CompOpp <$> SFcompare x y.
Proof.
  destruct x as [sx|sx| |sx mx ex], y as [sy|sy| |sy my ey]; cbn;
    try reflexivity; try (by destruct sx); try (by destruct sy);
    try (by destruct sx, sy).
  rewrite (Z.compare_antisym ex ey).
  destruct sx, sy; cbn; try reflexivity;
    destruct (ex ?= ey)%Z; cbn; try reflexivity.
  - by rewrite (Pos.compare_cont_antisym mx my Eq).
  - by rewrite (Pos.compare_cont_antisym mx my Eq).
Qed.

Lemma SFcompare_refl (x : spec_float) :
  SFcompare x x = match x with S754_nan => None | _ => Some Eq end.
Proof.
  destruct x as [s|s| |s m e]; cbn; try reflexivity.
  - by destruct s.
  - rewrite Z.compare_refl, Pos.compare_cont_refl. by destruct s.
Qed.

Lemma SFcompare_None (x y : spec_float) :
  SFcompare x y = None ↔ x = S754_nan ∨ y = S754_nan.
Proof.
  destruct x as [sx|sx| |sx mx ex], y as [sy|sy| |sy my ey]; cbn;
    split; try done; try (intros [?|?]; done); auto.
Qed.

Lemma is_nan_spec (x : binary64) :
  PrimFloat.is_nan x = true ↔ Prim2SF x = S754_nan.
Proof.
  unfold PrimFloat.is_nan. rewrite FloatAxioms.eqb_spec. unfold SFeqb.
  rewrite SFcompare_refl. by destruct (Prim2SF x).
Qed.

(** [a < b] is false exactly when one of the two is NaN or [b <= a]. *)
Lemma float_lt_false (a b : binary64) :
  float_lt a b = false
  ↔ PrimFloat.is_nan a = true ∨ PrimFloat.is_nan b = true
    ∨ (b <=? a)%float = true.
Proof.
  unfold float_lt.
  rewrite FloatAxioms.ltb_spec, FloatAxioms.leb_spec, !is_nan_spec.
  unfold SFltb, SFleb. rewrite (SFcompare_antisym (Prim2SF a) (Prim2SF b)).
  destruct (SFcompare (Prim2SF a) (Prim2SF b)) as [[| |]|] eqn:Hcompare; cbn.
  - split; auto.
  - split; [done|]. intros [H|[H|H]]; [| |done].
    + assert (Some Lt = None) by (rewrite <- Hcompare; apply SFcompare_None; auto).
      done.
    + assert (Some Lt = None) by (rewrite <- Hcompare; apply SFcompare_None; auto).
      done.
  - split; auto.
  - split; [|done]. intros _. apply SFcompare_None in Hcompare as [?|?]; auto.
Qed.

(** With bounds that are numbers, the two tests of the loop let through
    the floats between the bounds and NaN, and nothing else. *)
Lemma passes_bounds_tests (low high x : binary64) :
  PrimFloat.is_nan low = false → PrimFloat.is_nan high = false →
  passes_bounds low high x ↔ float_lt x low || float_lt high x = false.
Proof.
  intros Hlow Hhigh. unfold passes_bounds, float_between.
  rewrite orb_false_iff, !float_lt_false. rewrite Hlow, Hhigh. split.
  - intros [Hnan|[H1 H2]]; auto.
  - intros [[?|[?|H1]] [?|[?|H2]]]; auto; done.
Qed.

(** The two tests of the stops loop, for a row whose fields can be
    read. *)
Lemma import_stop_tests
    (float : string → option binary64) (radians : binary64 → binary64)
    (case_table : Py.case_table) (CORRECTIONS : list (string * string))
    (row : dict) (latitude longitude : binary64) (name : string) :
  dict_get "stop_lat" row ≫= float_of_value float = Some latitude →
  dict_get "stop_lon" row ≫= float_of_value float = Some longitude →
  dict_get "stop_name" row = Some (VStr name) →
  (passes_bounding_box latitude longitude
   ↔ ∃ stop, import_stop float radians case_table CORRECTIONS row = Some (Some stop))
  ∧ (¬ passes_bounding_box latitude longitude
     ↔ import_stop float radians case_table CORRECTIONS row = Some None).
Proof.
  intros Hlat Hlon Hname. unfold import_stop, passes_bounding_box.
  rewrite (passes_bounds_tests MIN_LATITUDE MAX_LATITUDE latitude)
    by reflexivity.
  rewrite (passes_bounds_tests MIN_LONGITUDE MAX_LONGITUDE longitude)
    by reflexivity.
  rewrite Hlat. cbn [mbind option_bind].
  destruct (float_lt latitude MIN_LATITUDE || float_lt MAX_LATITUDE latitude).
  { split; split; try done.
    - intros [? _]. done.
    - intros [stop Hstop]. discriminate Hstop.
    - intros _ [? _]. done. }
  rewrite Hlon. cbn [mbind option_bind].
  destruct (float_lt longitude MIN_LONGITUDE || float_lt MAX_LONGITUDE longitude).
  { split; split; try done.
    - intros [_ ?]. done.
    - intros [stop Hstop]. discriminate Hstop.
    - intros _ [_ ?]. done. }
  rewrite Hname. cbn. split; split.
  - eauto.
  - done.
  - intros Hout. destruct Hout. done.
  - discriminate.
Qed.

(** C5. A stop row whose coordinates parse to [latitude] and [longitude]
    (and whose name is text) is kept exactly when each of the two
    coordinates lies between its two bounds, bounds included, or is
    NaN, and is skipped otherwise.  So a stop of the box, its border
    included, is kept; but a stop that is kept need not be in the box:
    it is when none of its coordinates is NaN, and a coordinate that is
    NaN, which lies in no interval, is let through. *)
Theorem geographic_filter_passes
    (float : string → option binary64) (radians : binary64 → binary64)
    (case_table : Py.case_table) (CORRECTIONS : list (string * string))
    (row : dict) (latitude longitude : binary64) (name : string) :
  dict_get "stop_lat" row ≫= float_of_value float = Some latitude →
  dict_get "stop_lon" row ≫= float_of_value float = Some longitude →
  dict_get "stop_name" row = Some (VStr name) →
  (passes_bounding_box latitude longitude
   ↔ ∃ stop, import_stop float radians case_table CORRECTIONS row = Some (Some stop))
  ∧ (¬ passes_bounding_box latitude longitude
     ↔ import_stop float radians case_table CORRECTIONS row = Some None)
  ∧ (in_bounding_box latitude longitude →
     ∃ stop, import_stop float radians case_table CORRECTIONS row = Some (Some stop))
  ∧ ((∃ stop, import_stop float radians case_table CORRECTIONS row = Some (Some stop)) →
     in_bounding_box latitude longitude
     ∨ PrimFloat.is_nan latitude = true ∨ PrimFloat.is_nan longitude = true).
Proof.
  intros Hlat Hlon Hname.
  destruct (import_stop_tests float radians case_table CORRECTIONS row
              latitude longitude name Hlat Hlon Hname) as [Hkept Hskipped].
  split; [exact Hkept|]. split; [exact Hskipped|]. split.
  - intros [Hlatitude Hlongitude]. apply Hkept. split; by right.
  - intros Hstop. apply Hkept in Hstop as [[Hnan|Hlatitude] [Hnan'|Hlongitude]];
      auto. left. by split.
Qed.

Lemma geographic_filter_passes_witness :
  (∃ stop,
     import_stop sample_float (λ x, x) Py.ascii_table [] nan_stop_row
     = Some (Some stop))
  ∧ ¬ in_bounding_box nan 0.77446.
Proof.
  split.
  - destruct (geographic_filter_passes sample_float (λ x, x) Py.ascii_table []
                nan_stop_row nan 0.77446 "x") as (Hkept & _).
    + reflexivity.
    + reflexivity.
    + reflexivity.
    + apply Hkept. split; [left; reflexivity|right; split; reflexivity].
  - intros [[Hlow _] _]. vm_compute in Hlow. discriminate Hlow.
Defined.

(** ** Cycling coordinates *)

Lemma drop_last_app (s : string) (c : ascii) :
  Py.drop_last (s +:+ String c EmptyString) = s.
Proof.
  induction s as [|d s IH]; [reflexivity|].
  rewrite string_app_cons. cbn [Py.drop_last]. rewrite IH.
  destruct s; reflexivity.
Qed.

Lemma split_free (sep : ascii) (s : string) :
  Py.contains_char sep s = false → Py.split sep s = [s].
Proof.
  induction s as [|c s IH]; intros Hfree; [reflexivity|].
  cbn in Hfree. apply orb_false_elim in Hfree as [Hc Hs].
  cbn [Py.split]. rewrite Hc, IH by done. reflexivity.
Qed.

Lemma split_free_prefix (sep : ascii) (a t : string) :
  Py.contains_char sep a = false →
  Py.split sep (a +:+ String sep t) = a :: Py.split sep t.
Proof.
  induction a as [|c a IH]; intros Hfree.
  - change ("" +:+ String sep t) with (String sep t).
    cbn [Py.split]. by rewrite Ascii.eqb_refl.
  - cbn in Hfree. apply orb_false_elim in Hfree as [Hc Hs].
    rewrite string_app_cons. cbn [Py.split]. rewrite Hc, IH by done.
    reflexivity.
Qed.

(** C6 against the code.  On a field "(first,second)" the latitude that
    [derive_cycle_latitude] returns is read from the second component
    and the longitude of [derive_cycle_longitude] from the first, while
    the docstrings of both give the format as '(latitude, longitude)'. *)
Theorem cycle_latitude_is_second_component
    (float : string → option binary64) (first second : string) :
  Py.contains_char "," first = false →
  Py.contains_char "," second = false →
  derive_cycle_latitude float ("(" +:+ first +:+ "," +:+ second +:+ ")")
  = float second
  ∧ derive_cycle_longitude float ("(" +:+ first +:+ "," +:+ second +:+ ")")
    = float first.
Proof.
  intros Hfirst Hsecond.
  unfold derive_cycle_latitude, derive_cycle_longitude, Py.slice_1_m1.
  change ("(" +:+ first +:+ "," +:+ second +:+ ")")
    with (String "(" (first +:+ String "," (second +:+ ")"))).
  cbv iota.
  assert (Hinner : Py.drop_last (first +:+ String "," (second +:+ ")"))
                   = first +:+ String "," second).
  { rewrite <- (drop_last_app (first +:+ String "," second) ")").
    f_equal. clear. induction first as [|c first IH]; [reflexivity|].
    rewrite !string_app_cons. by rewrite IH. }
  rewrite Hinner, split_free_prefix, split_free by done.
  split; reflexivity.
Qed.

Lemma cycle_latitude_is_second_component_witness :
  derive_cycle_latitude sample_float "(49.44,1.09)" = Some 1.09%float
  ∧ derive_cycle_longitude sample_float "(49.44,1.09)" = Some 49.44%float.
Proof.
  apply (cycle_latitude_is_second_component sample_float "49.44" "1.09");
    reflexivity.
Defined.

(** ** NameNormalizer *)

Lemma ascii_lower_lower (c : ascii) :
  Py.ascii_lower (Py.ascii_lower c) = Py.ascii_lower c.
Proof. destruct c as [[] [] [] [] [] [] [] []]; reflexivity. Qed.

Lemma ascii_lower_upper (c : ascii) :
  Py.ascii_lower (Py.ascii_upper c) = Py.ascii_lower c.
Proof. destruct c as [[] [] [] [] [] [] [] []]; reflexivity. Qed.

Lemma ascii_upper_lower (c : ascii) :
  Py.ascii_upper (Py.ascii_lower c) = Py.ascii_upper c.
Proof. destruct c as [[] [] [] [] [] [] [] []]; reflexivity. Qed.

Lemma ascii_cased_lower (c : ascii) :
  Py.is_cased Py.ascii_table (Py.ascii_lower c) = Py.is_cased Py.ascii_table c.
Proof. destruct c as [[] [] [] [] [] [] [] []]; reflexivity. Qed.

Lemma lower_app (a b : string) : Py.lower (a +:+ b) = Py.lower a +:+ Py.lower b.
Proof.
  induction a as [|c a IH]; [done|].
  rewrite string_app_cons. cbn [Py.lower]. rewrite IH. done.
Qed.

Lemma lower_length (s : string) : String.length (Py.lower s) = String.length s.
Proof. induction s as [|c s IH]; cbn; [done|]. by rewrite IH. Qed.

(** Title-casing reads its input up to letter case. *)
Lemma title_from_lower (previous_is_cased : bool) (s : string) :
  Py.title_from Py.ascii_table previous_is_cased (Py.lower s)
  = Py.title_from Py.ascii_table previous_is_cased s.
Proof.
  revert previous_is_cased. induction s as [|c s IH]; intros b; [done|].
  cbn [Py.lower Py.title_from]. rewrite IH, ascii_cased_lower.
  f_equal. destruct b; cbn; by rewrite ?ascii_lower_lower, ?ascii_upper_lower.
Qed.

(** Title-casing changes letter case only. *)
Lemma lower_title_from (previous_is_cased : bool) (s : string) :
  Py.lower (Py.title_from Py.ascii_table previous_is_cased s) = Py.lower s.
Proof.
  revert previous_is_cased. induction s as [|c s IH]; intros b; [done|].
  cbn [Py.title_from]. rewrite lower_app, IH.
  destruct b; cbn; by rewrite ?ascii_lower_lower, ?ascii_lower_upper.
Qed.

Lemma prefix_app (p s : string) :
  String.prefix p s = true → ∃ t, s = p +:+ t.
Proof.
  revert s. induction p as [|c p IH]; intros s Hp; [by exists s|].
  destruct s as [|d s]; [done|]. cbn in Hp.
  destruct (ascii_dec c d) as [->|]; [|done].
  destruct (IH s Hp) as [t ->]. by exists t.
Qed.

Lemma string_app_inv_length (a a' b b' : string) :
  a +:+ b = a' +:+ b' → String.length a = String.length a' → a = a' ∧ b = b'.
Proof.
  revert a'. induction a as [|c a IH]; intros [|c' a'] Heq Hlen; try done.
  rewrite !string_app_cons in Heq. injection Heq as -> Heq.
  cbn in Hlen. destruct (IH a' Heq) as [-> ->]; [lia|done].
Qed.

Lemma replace_empty_empty (s : string) : Py.replace_empty "" s = s.
Proof. induction s as [|c s IH]; [done|]. cbn. by rewrite IH. Qed.

(** A replacement by the same letters in another case changes letter
    case only; [skip] characters of a match are still to be dropped. *)
Lemma lower_replace_from (bad good : string) (s : string) (skip : nat) :
  bad ≠ "" → Py.lower bad = Py.lower good →
  ∃ u rest,
    s = u +:+ rest
    ∧ String.length u = Nat.min skip (String.length s)
    ∧ Py.lower (Py.replace_from bad good skip s) = Py.lower rest.
Proof.
  intros Hbad Hcase. revert skip.
  induction s as [|c s IH]; intros skip.
  { exists "", "". repeat split. by destruct skip. }
  destruct skip as [|skip].
  - exists "", (String c s). split; [done|]. split; [done|].
    cbn [Py.replace_from].
    destruct (String.prefix bad (String c s)) eqn:Hprefix.
    + apply prefix_app in Hprefix as [t Hs].
      destruct bad as [|b bad]; [done|].
      rewrite string_app_cons in Hs. injection Hs as -> ->.
      assert (Hk : String.length (String b bad) - 1 = String.length bad)
        by (cbn; lia).
      rewrite Hk.
      destruct (IH (String.length bad)) as (u & rest & Hsplit & Hlen & Hlow).
      rewrite string_app_length in Hlen.
      rewrite Nat.min_l in Hlen by lia.
      apply string_app_inv_length in Hsplit as [_ <-]; [|done].
      rewrite lower_app, Hlow, <- Hcase, <- lower_app. done.
    + destruct (IH 0) as (u & rest & Hsplit & Hlen & Hlow).
      destruct u; [|done]. change ("" +:+ rest) with rest in Hsplit. subst rest.
      cbn [Py.lower]. by rewrite Hlow.
  - destruct (IH skip) as (u & rest & -> & Hlen & Hlow).
    exists (String c u), rest. split; [done|]. split; [|done].
    cbn [String.length]. rewrite Hlen. cbn. done.
Qed.

Lemma lower_replace (bad good s : string) :
  Py.lower bad = Py.lower good → Py.lower (Py.replace bad good s) = Py.lower s.
Proof.
  intros Hcase. unfold Py.replace. destruct bad as [|b bad].
  - destruct good; [|done]. by rewrite replace_empty_empty.
  - destruct (lower_replace_from (String b bad) good s 0) as (u & rest & -> & Hlen & ->);
      [done..|].
    by destruct u.
Qed.

Lemma lower_corrections (corrections : list (string * string)) (s : string) :
  Forall case_only corrections →
  Py.lower (foldl (λ name c, Py.replace c.1 c.2 name) s corrections) = Py.lower s.
Proof.
  intros Hall. revert s. induction Hall as [|c cs Hc _ IH]; intros s; [done|].
  cbn [foldl]. rewrite IH. by apply lower_replace.
Qed.

Lemma normalize_name_fixed_by_title
    (case_table : Py.case_table) (CORRECTIONS : list (string * string))
    (name : string) :
  Py.title case_table (normalize_name case_table CORRECTIONS name)
  = Py.title case_table name →
  normalize_name case_table CORRECTIONS
    (normalize_name case_table CORRECTIONS name)
  = normalize_name case_table CORRECTIONS name.
Proof.
  intros Htitle. unfold normalize_name at 1. rewrite Htitle. reflexivity.
Qed.

(** C8, as the code has it.  Normalising a normalised name returns it
    unchanged whenever title-casing the normalised name gives the
    title-cased input again, whatever the correction list and the case
    tables; on ASCII names that is so for every name once each
    correction changes nothing but the letter case of what it
    replaces. *)
Theorem normalize_name_idempotent
    (CORRECTIONS : list (string * string)) (name : string) :
  (∀ case_table,
     Py.title case_table (normalize_name case_table CORRECTIONS name)
     = Py.title case_table name →
     normalize_name case_table CORRECTIONS
       (normalize_name case_table CORRECTIONS name)
     = normalize_name case_table CORRECTIONS name)
  ∧ (Forall case_only CORRECTIONS →
     normalize_name Py.ascii_table CORRECTIONS
       (normalize_name Py.ascii_table CORRECTIONS name)
     = normalize_name Py.ascii_table CORRECTIONS name).
Proof.
  split.
  - intros case_table. apply normalize_name_fixed_by_title.
  - intros Hcase. apply normalize_name_fixed_by_title.
    unfold Py.title.
    rewrite <- (title_from_lower false (normalize_name _ _ _)).
    unfold normalize_name. rewrite lower_corrections by done.
    unfold Py.title. rewrite lower_title_from.
    apply title_from_lower.
Qed.

Lemma normalize_name_idempotent_witness :
  normalize_name Py.ascii_table [("De ", "de "); ("Chu", "CHU")]
    (normalize_name Py.ascii_table [("De ", "de "); ("Chu", "CHU")]
       "CHU de rouen")
  = "CHU de Rouen".
Proof.
  apply (proj2 (normalize_name_idempotent [("De ", "de "); ("Chu", "CHU")]
                  "CHU de rouen")).
  repeat constructor.
Defined.

(** C8 as worded fails: the list of the single correction "X" to "y" has
    no substring collision of any kind, and the name "x" normalises to
    "y", which normalises to "Y". *)
Lemma normalize_name_not_idempotent :
  ¬ chained_collision lone_correction
  ∧ normalize_name Py.ascii_table lone_correction "x" = "y"
  ∧ normalize_name Py.ascii_table lone_correction
      (normalize_name Py.ascii_table lone_correction "x") = "Y".
Proof.
  split; [|split; reflexivity].
  intros (c1 & c2 & H1 & H2 & H).
  apply list_elem_of_singleton in H1 as ->.
  apply list_elem_of_singleton in H2 as ->.
  destruct H as [H|[H _]]; [discriminate H | done].
Qed.

(** ** Clustering and deduplication of the transit rows *)

Lemma prepare_station_used_mono state row :
  state.2 ⊆ (prepare_station state row).2.
Proof.
  destruct state as [near_points used]. unfold prepare_station.
  repeat case_match; cbn; set_solver.
Qed.

Lemma covered_mono used used' route_short_name school :
  used ⊆ used' → covered used route_short_name school →
  covered used' route_short_name school.
Proof.
  intros Hsub [Hkey|[Hschool Hregular]]; [left|right; split]; auto.
Qed.

Lemma prepare_station_covers state row :
  covered (prepare_station state row).2
    (StationRow.route_short_name row) (is_school row).
Proof.
  destruct state as [near_points used]. unfold prepare_station, covered.
  case_bool_decide as Hkey; [by left|].
  destruct (is_school row) eqn:Hschool; cbn [andb].
  - case_bool_decide as Hregular; [by right|].
    left. cbn. set_solver.
  - left. cbn. set_solver.
Qed.

Lemma prepare_station_skips state row :
  covered state.2 (StationRow.route_short_name row) (is_school row) →
  prepare_station state row = state.
Proof.
  destruct state as [near_points used]. unfold prepare_station, covered. cbn.
  intros [Hkey|[Hschool Hregular]].
  - by rewrite bool_decide_eq_true_2.
  - case_bool_decide; [done|]. rewrite Hschool. cbn.
    by rewrite bool_decide_eq_true_2.
Qed.

Lemma foldl_prepare_station_used_mono rows state :
  state.2 ⊆ (foldl prepare_station state rows).2.
Proof.
  revert state. induction rows as [|row rows IH]; intros state; [done|].
  cbn. etrans; [apply prepare_station_used_mono|apply IH].
Qed.

(** C2, as the code has it.  The set [used] of keys
    (route short name, school flag) is one for the whole result, not one
    per stop name: of two candidate rows with the same route short name,
    the later adds nothing to any group when it has the school flag of
    the earlier or is the school variant of an earlier regular row,
    whatever the stop names of the two rows. *)
Theorem dedup_spans_name_groups
    (before between after : list StationRow.row) (r1 r2 : StationRow.row) :
  StationRow.route_short_name r1 = StationRow.route_short_name r2 →
  is_school r1 = is_school r2 ∨ (is_school r1 = false ∧ is_school r2 = true) →
  prepare_stations (before ++ r1 :: between ++ r2 :: after)
  = prepare_stations (before ++ r1 :: between ++ after).
Proof.
  intros Hname Hschool. unfold prepare_stations.
  rewrite !foldl_app. cbn [foldl]. rewrite !foldl_app. cbn [foldl].
  set (s1 := prepare_station (foldl prepare_station (∅, ∅) before) r1).
  set (s2 := foldl prepare_station s1 between).
  rewrite (prepare_station_skips s2 r2); [done|].
  apply (covered_mono s1.2); [apply foldl_prepare_station_used_mono|].
  pose proof (prepare_station_covers
                (foldl prepare_station (∅, ∅) before) r1) as Hcov.
  fold s1 in Hcov. rewrite Hname in Hcov. unfold covered in *.
  destruct Hschool as [<-|[Hs1 Hs2]]; [done|].
  rewrite Hs1 in Hcov. rewrite Hs2. right. split; [done|].
  destruct Hcov as [?|[? ?]]; done.
Qed.

Lemma dedup_spans_name_groups_witness :
  prepare_stations [row_gare; row_mairie] = prepare_stations [row_gare].
Proof.
  apply (dedup_spans_name_groups [] [] [] row_gare row_mairie).
  - reflexivity.
  - left. reflexivity.
Defined.

(** C2 as worded fails: "Gare" and "Mairie" are two name-groups, both
    rows are route "T1" in regular service, and the result has the entry
    under "Gare" alone; no group "Mairie" exists. *)
Lemma second_name_group_gets_no_entry :
  StationRow.stop_name row_gare ≠ StationRow.stop_name row_mairie
  ∧ StationRow.route_short_name row_gare = StationRow.route_short_name row_mairie
  ∧ is_school row_gare = is_school row_mairie
  ∧ prepare_stations [row_gare; row_mairie] !! "Mairie" = None
  ∧ prepare_stations [row_gare; row_mairie] !! "Gare"
    = Some {| Group.points := [ {| Point.name := "T1"; Point.long_name := "A <> B";
                                   Point.school := false; Point.type := "astuce" |} ];
              Group.distance_min := 10; Group.distance_max := 10 |}.
Proof.
  split; [discriminate|]. repeat split; vm_compute; reflexivity.
Qed.

(** ** Distance and direction *)

Section GeometryFacts.
Local Open Scope R_scope.

Lemma real_lt_true (a b : R) : real_lt a b = true ↔ a < b.
Proof. unfold real_lt. destruct (Rlt_dec a b); split; (done || lra). Qed.

Lemma real_lt_false (a b : R) : real_lt a b = false ↔ b <= a.
Proof. unfold real_lt. destruct (Rlt_dec a b); split; (done || lra). Qed.

Lemma abs_le_inv (x b : R) : Rabs x <= b -> - b <= x <= b.
Proof. unfold Rabs. destruct (Rcase_abs x); lra. Qed.

Lemma radians_octant : radians (45 / 2) = PI / 8.
Proof. unfold radians. field. Qed.

Lemma sin_octant_bounds : 0 < sin (radians (45 / 2)) < 1.
Proof.
  rewrite radians_octant. pose proof PI2_1. pose proof PI_RGT_0. split.
  - apply sin_gt_0; lra.
  - rewrite <- sin_PI2. apply sin_increasing_1; lra.
Qed.

Lemma asin_le (x y : R) : -1 <= x -> x <= y -> y <= 1 -> asin x <= asin y.
Proof.
  intros Hx Hxy Hy.
  destruct (Rle_lt_dec (asin x) (asin y)) as [|Hlt]; [done|].
  pose proof (asin_bound x). pose proof (asin_bound y).
  assert (sin (asin y) < sin (asin x)) as Hsin
    by (apply sin_increasing_1; lra).
  rewrite !sin_asin in Hsin by lra. lra.
Qed.

Lemma asin_nonneg (x : R) : 0 <= x <= 1 -> 0 <= asin x.
Proof. intros Hx. rewrite <- asin_0. apply asin_le; lra. Qed.

Lemma asin_ge_id (x : R) : 0 <= x <= 1 -> x <= asin x.
Proof.
  intros Hx. pose proof (asin_nonneg x Hx) as H0.
  assert (sin (asin x) <= asin x) as Hsin.
  { destruct (Req_dec (asin x) 0) as [Hz|Hnz].
    - rewrite Hz, sin_0. lra.
    - left. apply sin_lt_x. lra. }
  rewrite sin_asin in Hsin by lra. exact Hsin.
Qed.

Lemma asin_abs (x : R) : -1 <= x <= 1 -> Rabs (asin x) = asin (Rabs x).
Proof.
  intros Hx. destruct (Rle_dec 0 x) as [Hpos|Hneg].
  - rewrite (Rabs_pos_eq x) by done. apply Rabs_pos_eq. apply asin_nonneg. lra.
  - rewrite (Rabs_left x) by lra. rewrite asin_opp.
    apply Rabs_left1. rewrite <- (Ropp_involutive x), asin_opp.
    pose proof (asin_nonneg (- x)). lra.
Qed.

Lemma sin_abs_le (t : R) : Rabs (sin t) <= Rabs t.
Proof.
  pose proof (SIN_bound t) as Hb. pose proof PI2_1 as Hpi.
  destruct (Rle_dec 1 (Rabs t)) as [Hbig|Hsmall].
  { etransitivity; [|exact Hbig]. apply Rabs_le. lra. }
  apply Rnot_le_lt in Hsmall. apply Rabs_def2 in Hsmall as [Hlt Hgt].
  destruct (Rtotal_order t 0) as [Hneg|[->|Hpos]].
  - pose proof (sin_gt_x t Hneg). 
    assert (sin t < 0) by (apply sin_lt_0_var; lra).
    rewrite !Rabs_left by lra. lra.
  - rewrite sin_0. lra.
  - pose proof (sin_lt_x t Hpos).
    assert (0 < sin t) by (apply sin_gt_0; lra).
    rewrite !Rabs_pos_eq by lra. lra.
Qed.

Lemma sin_sq_le (t : R) : sin t ^ 2 <= t ^ 2.
Proof.
  rewrite <- !Rsqr_pow2. apply Rsqr_le_abs_1, sin_abs_le.
Qed.

(** The haversine term is at most the square of the larger offset. *)
Lemma haversine_le (x y c m : R) :
  Rabs x <= m -> Rabs y <= m -> c <= 1 ->
  sin (x / 2) ^ 2 + c * sin (y / 2) ^ 2 <= m ^ 2.
Proof.
  intros Hx Hy Hc.
  pose proof (sin_sq_le (x / 2)) as H1. pose proof (sin_sq_le (y / 2)) as H2.
  assert (0 <= sin (y / 2) ^ 2) by (rewrite <- Rsqr_pow2; apply Rle_0_sqr).
  assert (x ^ 2 <= m ^ 2).
  { rewrite <- !Rsqr_pow2. apply Rsqr_le_abs_1.
    rewrite (Rabs_pos_eq m); [done|]. pose proof (Rabs_pos x). lra. }
  assert (y ^ 2 <= m ^ 2).
  { rewrite <- !Rsqr_pow2. apply Rsqr_le_abs_1.
    rewrite (Rabs_pos_eq m); [done|]. pose proof (Rabs_pos y). lra. }
  nra.
Qed.


Lemma gps_distance_some (lat1 lon1 lat2 lon2 distance : R) :
  gps_distance lat1 lon1 lat2 lon2 = Some distance ↔
  let h := sin ((lat2 - lat1) / 2) ^ 2
           + cos lat1 * cos lat2 * sin ((lon2 - lon1) / 2) ^ 2 in
  0 <= h ∧ sqrt h <= 1 ∧ distance = EARTH_DIAMETER * asin (sqrt h).
Proof.
  unfold gps_distance, math_sqrt, math_asin. cbv zeta.
  set (h := sin ((lat2 - lat1) / 2) ^ 2
            + cos lat1 * cos lat2 * sin ((lon2 - lon1) / 2) ^ 2).
  pose proof (sqrt_pos h) as Hroot.
  destruct (real_lt h 0) eqn:Hh; cbn.
  { apply real_lt_true in Hh. split; [done|]. intros [? _]. lra. }
  apply real_lt_false in Hh.
  rewrite (proj2 (real_lt_false (sqrt h) (-1))) by lra.
  destruct (real_lt 1 (sqrt h)) eqn:H1; cbn.
  { apply real_lt_true in H1. split; [done|]. intros (_ & ? & _). lra. }
  apply real_lt_false in H1. split.
  - intros [= <-]. done.
  - intros (_ & _ & ->). done.
Qed.

Lemma math_asin_some (x a : R) :
  math_asin x = Some a ↔ -1 <= x <= 1 ∧ a = asin x.
Proof.
  unfold math_asin.
  destruct (real_lt x (-1)) eqn:H1.
  { apply real_lt_true in H1. split; [done|]. intros [[? ?] _]. lra. }
  apply real_lt_false in H1.
  destruct (real_lt 1 x) eqn:H2.
  { apply real_lt_true in H2. split; [done|]. intros [[? ?] _]. lra. }
  apply real_lt_false in H2. split.
  - intros [= <-]. done.
  - intros [_ ->]. done.
Qed.

(** The labels the two [if] chains build, axis by axis. *)
Lemma direction_axes (s lat_angle lon_angle : R) :
  0 < s ->
  (let direction := "" in
   let direction :=
     if real_lt 0 lat_angle && real_lt s lat_angle then direction +:+ "N"
     else if real_lt lat_angle 0 && real_lt lat_angle (- s) then direction +:+ "S"
     else direction in
   let direction :=
     if real_lt 0 lon_angle && real_lt s lon_angle then direction +:+ "E"
     else if real_lt lon_angle 0 && real_lt lon_angle (- s) then direction +:+ "W"
     else direction in
   direction)
  = (if real_lt s lat_angle then "N"
     else if real_lt lat_angle (- s) then "S" else "")
    +:+ (if real_lt s lon_angle then "E"
         else if real_lt lon_angle (- s) then "W" else "").
Proof.
  intros Hs. cbv zeta.
  destruct (real_lt 0 lat_angle) eqn:A1, (real_lt s lat_angle) eqn:A2,
    (real_lt lat_angle 0) eqn:A3, (real_lt lat_angle (- s)) eqn:A4,
    (real_lt 0 lon_angle) eqn:B1, (real_lt s lon_angle) eqn:B2,
    (real_lt lon_angle 0) eqn:B3, (real_lt lon_angle (- s)) eqn:B4;
    try reflexivity;
    rewrite ?real_lt_true, ?real_lt_false in *; lra.
Qed.

Lemma axis_labels_in (lat_angle lon_angle : R) :
  axis_label lat_angle "N" "S" +:+ axis_label lon_angle "E" "W"
  ∈ compass_labels.
Proof.
  unfold axis_label, compass_labels.
  repeat case_match; cbn; set_solver.
Qed.

Lemma axis_labels_empty (lat_angle lon_angle : R) :
  axis_label lat_angle "N" "S" +:+ axis_label lon_angle "E" "W" = ""
  ↔ Rabs lat_angle <= sin (radians (45 / 2))
    ∧ Rabs lon_angle <= sin (radians (45 / 2)).
Proof.
  pose proof sin_octant_bounds as Hs. unfold axis_label.
  destruct (real_lt (sin (radians (45 / 2))) lat_angle) eqn:A1,
    (real_lt lat_angle (- sin (radians (45 / 2)))) eqn:A2,
    (real_lt (sin (radians (45 / 2))) lon_angle) eqn:B1,
    (real_lt lon_angle (- sin (radians (45 / 2)))) eqn:B2;
    rewrite ?real_lt_true, ?real_lt_false in *.
  all: split;
    [ intros H;
      first [ vm_compute in H; discriminate H | split; apply Rabs_le; lra ]
    | intros [H1 H2]; apply abs_le_inv in H1, H2;
      first [ reflexivity | lra ] ].
Qed.


(** Away from the query point one of the two axes passes the
    threshold: the two ratios cannot both stay within sin 22.5. *)
Lemma some_axis_passes (x y c angle : R) :
  let h := sin (x / 2) ^ 2 + c * sin (y / 2) ^ 2 in
  -1 <= x <= 1 -> -1 <= y <= 1 -> c <= 1 ->
  0 <= h -> sqrt h <= 1 -> angle = asin (sqrt h) -> 0 < angle ->
  ¬ (Rabs (asin x) <= sin (radians (45 / 2)) * angle
     ∧ Rabs (asin y) <= sin (radians (45 / 2)) * angle).
Proof.
  intros h Hx Hy Hc Hh Hroot Hangle Hpos [Hlat Hlon].
  pose proof sin_octant_bounds as Hs.
  set (m := Rmax (Rabs x) (Rabs y)).
  assert (Hmx : Rabs x <= m) by apply Rmax_l.
  assert (Hmy : Rabs y <= m) by apply Rmax_r.
  assert (Hm0 : 0 <= m) by (pose proof (Rabs_pos x); lra).
  assert (Hm1 : m <= 1).
  { unfold m. apply Rmax_lub; apply Rabs_le; lra. }
  assert (Hhm : sqrt h <= m).
  { rewrite <- (sqrt_pow2 m) by done. apply sqrt_le_1_alt.
    by apply haversine_le. }
  assert (Hangle_m : angle <= asin m).
  { rewrite Hangle. apply asin_le; [|done..]. pose proof (sqrt_pos h). lra. }
  assert (Hasin_m : asin m <= sin (radians (45 / 2)) * angle).
  { unfold m. destruct (Rle_dec (Rabs x) (Rabs y)) as [Hle|Hgt].
    - rewrite Rmax_right by done. rewrite <- asin_abs by done. exact Hlon.
    - rewrite Rmax_left by lra. rewrite <- asin_abs by done. exact Hlat. }
  nra.
Qed.

Lemma compare_positions_some (lat1 lon1 lat2 lon2 : R) (z : Z) (direction : string) :
  compare_positions lat1 lon1 lat2 lon2 = Some (z, direction) ↔
  ∃ distance,
    gps_distance (radians lat1) (radians lon1) (radians lat2) (radians lon2)
    = Some distance
    ∧ z = int_of_real distance
    ∧ ((distance < 5 ∧ direction = "")
       ∨ (5 <= distance
          ∧ -1 <= radians lat2 - radians lat1 <= 1
          ∧ -1 <= radians lon2 - radians lon1 <= 1
          ∧ direction
            = axis_label (asin (radians lat2 - radians lat1)
                          * EARTH_DIAMETER / distance) "N" "S"
              +:+ axis_label (asin (radians lon2 - radians lon1)
                              * EARTH_DIAMETER / distance) "E" "W")).
Proof.
  pose proof sin_octant_bounds as [Hs _].
  unfold compare_positions. cbv zeta.
  destruct (gps_distance (radians lat1) (radians lon1) (radians lat2)
              (radians lon2)) as [distance|]; cbn [mbind option_bind];
    [|split; [done|intros (? & [=] & _)]].
  destruct (real_lt distance 5) eqn:Hnear.
  { apply real_lt_true in Hnear. split.
    - intros [= <- <-]. exists distance. repeat split. by left.
    - intros (? & [= <-] & -> & [[_ ->]|[? _]]); [done|lra]. }
  apply real_lt_false in Hnear.
  destruct (math_asin (radians lon2 - radians lon1)) as [lon_asin|] eqn:Hlon;
    cbn [mbind option_bind].
  2:{ split; [done|]. intros (? & [= <-] & _ & [[? _]|(_ & _ & Hdom & _)]); [lra|].
      assert (is_Some (math_asin (radians lon2 - radians lon1))) as [? Hsome]
        by (eexists; by apply math_asin_some).
      congruence. }
  apply math_asin_some in Hlon as [Hlon_dom ->].
  destruct (math_asin (radians lat2 - radians lat1)) as [lat_asin|] eqn:Hlat;
    cbn [mbind option_bind].
  2:{ split; [done|]. intros (? & [= <-] & _ & [[? _]|(_ & Hdom & _)]); [lra|].
      assert (is_Some (math_asin (radians lat2 - radians lat1))) as [? Hsome]
        by (eexists; by apply math_asin_some).
      congruence. }
  apply math_asin_some in Hlat as [Hlat_dom ->].
  pose proof (direction_axes (sin (radians (45 / 2)))
                (asin (radians lat2 - radians lat1) * EARTH_DIAMETER / distance)
                (asin (radians lon2 - radians lon1) * EARTH_DIAMETER / distance)
                Hs) as Hdir.
  cbv zeta in Hdir. rewrite Hdir. fold (axis_label
    (asin (radians lat2 - radians lat1) * EARTH_DIAMETER / distance) "N" "S").
  fold (axis_label
    (asin (radians lon2 - radians lon1) * EARTH_DIAMETER / distance) "E" "W").
  split.
  - intros [= <- <-]. exists distance. repeat split. right. done.
  - intros (? & [= <-] & -> & [[? _]|(_ & _ & _ & ->)]); [lra|done].
Qed.


Lemma radians_quarter_turn (lat : R) :
  -90 <= lat <= 90 -> - (PI / 2) <= radians lat <= PI / 2.
Proof. intros Hlat. unfold radians. pose proof PI_RGT_0. nra. Qed.

Lemma earth_diameter_pos : 0 < EARTH_DIAMETER.
Proof. unfold EARTH_DIAMETER. lra. Qed.

Lemma gps_distance_total (lat1 lon1 lat2 lon2 : R) :
  - (PI / 2) <= lat1 <= PI / 2 -> - (PI / 2) <= lat2 <= PI / 2 ->
  Rabs (lat2 - lat1) <= 1 -> Rabs (lon2 - lon1) <= 1 ->
  is_Some (gps_distance lat1 lon1 lat2 lon2).
Proof.
  intros H1 H2 Hlat Hlon.
  eexists. apply gps_distance_some. cbv zeta.
  pose proof (cos_ge_0 lat1 (proj1 H1) (proj2 H1)) as Hc1.
  pose proof (cos_ge_0 lat2 (proj1 H2) (proj2 H2)) as Hc2.
  pose proof (COS_bound lat1) as Hb1. pose proof (COS_bound lat2) as Hb2.
  assert (Hc : cos lat1 * cos lat2 <= 1) by nra.
  assert (0 <= cos lat1 * cos lat2) by nra.
  assert (0 <= sin ((lat2 - lat1) / 2) ^ 2) by (rewrite <- Rsqr_pow2; apply Rle_0_sqr).
  assert (0 <= sin ((lon2 - lon1) / 2) ^ 2) by (rewrite <- Rsqr_pow2; apply Rle_0_sqr).
  split; [nra|]. split; [|reflexivity].
  pose proof (haversine_le (lat2 - lat1) (lon2 - lon1) (cos lat1 * cos lat2) 1
                Hlat Hlon Hc) as Hle.
  replace (1 ^ 2) with 1 in Hle by lra.
  apply Rle_trans with (sqrt 1); [by apply sqrt_le_1_alt|].
  rewrite sqrt_1. lra.
Qed.

Lemma int_of_real_IZR (z : Z) : (0 <= z)%Z -> int_of_real (IZR z) = z.
Proof.
  intros Hz. unfold int_of_real.
  destruct (Rle_dec 0 (IZR z)) as [_|Hneg]; [|by apply IZR_le in Hz].
  symmetry. apply Int_part_spec. lra.
Qed.

(** C9.  With the floats read as reals: whenever [compare_positions]
    returns, the label is empty
    exactly when the great-circle distance is below 5 m; from 5 m on it
    is the latitude label followed by the longitude label, each got
    by comparing the offset projected on its axis with sin 22.5, and
    it is one of the eight octants or the empty label.  For valid
    latitudes and offsets of at most one radian the function does
    return.  A point due north (same longitude) lies at
    EARTH_DIAMETER * offset / 2 and, from 5 m on, is labelled "N":
    so is the point 100 m north. *)
Theorem compare_positions_classification (lat1 lon1 lat2 lon2 : R) :
  (∀ z direction,
     compare_positions lat1 lon1 lat2 lon2 = Some (z, direction) →
     ∃ distance,
       gps_distance (radians lat1) (radians lon1) (radians lat2) (radians lon2)
       = Some distance
       ∧ z = int_of_real distance
       ∧ (direction = "" ↔ distance < 5)
       ∧ (5 <= distance →
          direction
          = axis_label (asin (radians lat2 - radians lat1)
                        * EARTH_DIAMETER / distance) "N" "S"
            +:+ axis_label (asin (radians lon2 - radians lon1)
                            * EARTH_DIAMETER / distance) "E" "W")
       ∧ direction ∈ compass_labels)
  ∧ (-90 <= lat1 <= 90 → -90 <= lat2 <= 90 →
     Rabs (radians lat2 - radians lat1) <= 1 →
     Rabs (radians lon2 - radians lon1) <= 1 →
     is_Some (compare_positions lat1 lon1 lat2 lon2))
  ∧ (lon1 = lon2 → -90 <= lat1 → lat1 <= lat2 → lat2 <= 90 →
     radians lat2 - radians lat1 <= 1 →
     gps_distance (radians lat1) (radians lon1) (radians lat2) (radians lon2)
     = Some (EARTH_DIAMETER * (radians lat2 - radians lat1) / 2)
     ∧ (5 <= EARTH_DIAMETER * (radians lat2 - radians lat1) / 2 →
        compare_positions lat1 lon1 lat2 lon2
        = Some (int_of_real (EARTH_DIAMETER * (radians lat2 - radians lat1) / 2),
                "N"))).
Proof.
  pose proof sin_octant_bounds as Hs. pose proof earth_diameter_pos as HD.
  split; [|split].
  - intros z direction Hrun.
    apply compare_positions_some in Hrun
      as (distance & Hgps & -> & [[Hnear ->]|(Hfar & Hlat & Hlon & ->)]).
    + exists distance. repeat split; try done; [lra|left].
    + exists distance. split; [done|]. split; [done|].
      split; [|split; [done|apply axis_labels_in]].
      split; [|lra]. intros Hempty. exfalso.
      apply axis_labels_empty in Hempty as [Hlat_in Hlon_in].
      apply gps_distance_some in Hgps as (Hh & Hroot & Hdist). cbv zeta in *.
      set (angle := asin (sqrt (sin ((radians lat2 - radians lat1) / 2) ^ 2
                        + cos (radians lat1) * cos (radians lat2)
                          * sin ((radians lon2 - radians lon1) / 2) ^ 2))) in *.
      assert (Hangle : 0 < angle) by nra.
      pose proof (COS_bound (radians lat1)). pose proof (COS_bound (radians lat2)).
      assert (Hratio : ∀ a, Rabs (a * EARTH_DIAMETER / distance)
                            <= sin (radians (45 / 2)) →
                            Rabs a <= sin (radians (45 / 2)) * angle).
      { intros a Ha. replace (a * EARTH_DIAMETER / distance) with (a / angle) in Ha
          by (rewrite Hdist; field; lra).
        unfold Rdiv in Ha. rewrite Rabs_mult, Rabs_inv in Ha.
        rewrite (Rabs_pos_eq angle) in Ha by lra.
        apply (Rmult_le_compat_r angle) in Ha; [|lra].
        replace (Rabs a * / angle * angle) with (Rabs a) in Ha by (field; lra).
        exact Ha. }
      apply (some_axis_passes (radians lat2 - radians lat1)
               (radians lon2 - radians lon1)
               (cos (radians lat1) * cos (radians lat2)) angle);
        try done; [nra|split; by apply Hratio].
  - intros Hlat1 Hlat2 Hdlat Hdlon.
    destruct (gps_distance_total (radians lat1) (radians lon1) (radians lat2)
                (radians lon2)) as [distance Hgps];
      [by apply radians_quarter_turn..|done|done|].
    apply abs_le_inv in Hdlat, Hdlon.
    destruct (Rlt_le_dec distance 5) as [Hnear|Hfar].
    + exists (int_of_real distance, ""). apply compare_positions_some.
      exists distance. repeat split; try done. by left.
    + eexists (int_of_real distance, _). apply compare_positions_some.
      exists distance. split; [done|]. split; [done|]. right. done.
  - intros <- Hlat1 Hle Hlat2 Hdlat.
    assert (Hd0 : 0 <= radians lat2 - radians lat1).
    { unfold radians. pose proof PI_RGT_0. nra. }
    pose proof PI2_1 as Hpi.
    assert (Hgps : gps_distance (radians lat1) (radians lon1) (radians lat2)
                     (radians lon1)
                   = Some (EARTH_DIAMETER * (radians lat2 - radians lat1) / 2)).
    { apply gps_distance_some. cbv zeta.
      replace ((radians lon1 - radians lon1) / 2) with 0 by lra.
      rewrite sin_0.
      replace (sin ((radians lat2 - radians lat1) / 2) ^ 2
               + cos (radians lat1) * cos (radians lat2) * 0 ^ 2)
        with (sin ((radians lat2 - radians lat1) / 2) ^ 2) by lra.
      assert (Hsin : 0 <= sin ((radians lat2 - radians lat1) / 2))
        by (apply sin_ge_0; lra).
      rewrite sqrt_pow2 by done.
      split; [nra|]. split; [apply SIN_bound|].
      rewrite asin_sin by lra. lra. }
    split; [exact Hgps|]. intros Hfar.
    apply compare_positions_some.
    eexists. split; [exact Hgps|]. split; [done|]. right.
    split; [done|]. split; [lra|]. split; [lra|].
    assert (Hdpos : 0 < radians lat2 - radians lat1) by nra.
    replace (radians lon1 - radians lon1) with 0 by lra.
    rewrite asin_0. unfold axis_label.
    replace (0 * EARTH_DIAMETER / (EARTH_DIAMETER * (radians lat2 - radians lat1) / 2))
      with 0 by (field; lra).
    rewrite (proj2 (real_lt_false (sin (radians (45 / 2))) 0)) by lra.
    rewrite (proj2 (real_lt_false 0 (- sin (radians (45 / 2))))) by lra.
    rewrite (proj2 (real_lt_true (sin (radians (45 / 2))) _)); [done|].
    pose proof (asin_ge_id (radians lat2 - radians lat1)) as Hasin.
    replace (asin (radians lat2 - radians lat1) * EARTH_DIAMETER
             / (EARTH_DIAMETER * (radians lat2 - radians lat1) / 2))
      with (2 * (asin (radians lat2 - radians lat1) / (radians lat2 - radians lat1)))
      by (field; lra).
    assert (1 <= asin (radians lat2 - radians lat1) / (radians lat2 - radians lat1)).
    { apply (Rmult_le_reg_r (radians lat2 - radians lat1)); [done|].
      replace (asin (radians lat2 - radians lat1) / (radians lat2 - radians lat1)
               * (radians lat2 - radians lat1))
        with (asin (radians lat2 - radians lat1)) by (field; lra).
      lra. }
    lra.
Qed.

Lemma compare_positions_classification_witness :
  compare_positions 0 0 north_100m 0 = Some (100%Z, "N").
Proof.
  pose proof PI2_3_2 as Hpi.
  assert (Hrad : radians north_100m - radians 0 = 200 / EARTH_DIAMETER).
  { unfold radians, north_100m, EARTH_DIAMETER. field. lra. }
  assert (Hdist : EARTH_DIAMETER * (radians north_100m - radians 0) / 2 = 100).
  { rewrite Hrad. unfold EARTH_DIAMETER. field. }
  assert (Hnorth : 0 <= north_100m <= 90).
  { unfold north_100m, EARTH_DIAMETER. split.
    - apply Rlt_le. apply Rdiv_lt_0_compat; lra.
    - apply (Rmult_le_reg_r PI); [lra|].
      replace (200 / 12742000 * 180 / PI * PI) with (200 / 12742000 * 180)
        by (field; lra).
      lra. }
  destruct (compare_positions_classification 0 0 north_100m 0)
    as (_ & _ & Hnorth_case).
  destruct Hnorth_case as [_ Hrun]; try lra.
  - rewrite Hrad. unfold EARTH_DIAMETER. lra.
  - rewrite Hdist in Hrun. rewrite Hrun by lra.
    by rewrite (int_of_real_IZR 100).
Defined.

End GeometryFacts.


(** ** More on the reconciliation *)

Lemma selected_ids_elem {A} (f : A → string) (P : A → Prop)
    `{!∀ x, Decision (P x)} (l : list A) (id : string) :
  id ∈ (list_to_set (f <$> filter P l) : gset string)
  ↔ ∃ x, x ∈ l ∧ P x ∧ f x = id.
Proof.
  rewrite elem_of_list_to_set, list_elem_of_fmap. split.
  - intros (x & -> & [HP Hx]%list_elem_of_filter). eauto.
  - intros (x & Hx & HP & <-). exists x. split; [done|].
    by apply list_elem_of_filter.
Qed.


Lemma delete_elevator_stops_clean (db : store) :
  (∀ s, s ∈ stops db → ¬ elevator_stop s) → delete_elevator_stops db = db.
Proof.
  intros Hclean. unfold delete_elevator_stops. rewrite filter_all.
  - by destruct db.
  - intros s Hs. specialize (Hclean s Hs). unfold elevator_stop in Hclean.
    by destruct (Sql.like (Stops.stop_id s) "AST-___ASC").
Qed.

(** The statements of [remove_elevators], one after the other. *)
Lemma remove_elevators_run (db : store) :
  ∃ db',
    remove_elevators db = Some db'
    ∧ remove_trips
        (Trips.trip_id <$> filter elevator_trip (trips db))
        (delete_elevator_stops db) = Some db'
    ∧ (∀ s, s ∈ stops db' → ¬ elevator_stop s)
    ∧ (∀ t, t ∈ trips db' → ¬ elevator_trip t).
Proof.
  unfold remove_elevators.
  change (filter (λ t, Sql.like (Trips.service_id t) "AST-ASCESC%"
                       || Sql.like (Trips.service_id t) "AST-___ASC" = true)
                 (trips db))
    with (filter elevator_trip (trips db)).
  set (trip_ids := Trips.trip_id <$> filter elevator_trip (trips db)).
  pose proof (remove_trips_eq trip_ids (delete_elevator_stops db)) as Hrun.
  cbv zeta in Hrun.
  cbn [routes stops stop_times trips cache_stop_routes delete_elevator_stops]
    in Hrun.
  rewrite Hrun. cbn [mbind option_bind].
  match type of Hrun with _ = Some ?d => set (db1 := d) in * end.
  assert (Hstops : ∀ s, s ∈ stops db1 → ¬ elevator_stop s).
  { intros s Hs. unfold db1 in Hs. cbn [stops] in Hs.
    apply list_elem_of_filter in Hs as [_ Hs].
    apply list_elem_of_filter in Hs as [Hs _].
    unfold elevator_stop. by rewrite Hs. }
  rewrite (delete_elevator_stops_clean db1 Hstops).
  exists db1. split; [done|]. split; [done|]. split; [done|].
  intros t Ht Helev. unfold db1 in Ht. cbn [trips] in Ht.
  apply list_elem_of_filter in Ht as [Hnot Ht]. apply Hnot.
  apply list_elem_of_fmap. exists t. split; [done|].
  by apply list_elem_of_filter.
Qed.

(** X2.  The store [remove_elevators] returns holds neither a stop
    whose identifier matches 'AST-___ASC' nor a trip whose service
    matches one of the two elevator patterns.  Its second deletion of
    elevator stops deletes nothing: the store is already the one the
    trip removal returned. *)
Theorem remove_elevators_clears (db db' : store) :
  remove_elevators db = Some db' →
  remove_trips
    (Trips.trip_id <$> filter elevator_trip (trips db))
    (delete_elevator_stops db) = Some db'
  ∧ (∀ s, s ∈ stops db' → ¬ elevator_stop s)
  ∧ (∀ t, t ∈ trips db' → ¬ elevator_trip t).
Proof.
  intros Hrun.
  destruct (remove_elevators_run db) as (db'' & Hrun' & Hclear).
  rewrite Hrun in Hrun'. injection Hrun' as <-. exact Hclear.
Qed.

Lemma remove_elevators_clears_witness :
  (∀ s, s ∈ stops elevator_store_cleared → ¬ elevator_stop s)
  ∧ (∀ t, t ∈ trips elevator_store_cleared → ¬ elevator_trip t).
Proof.
  apply (remove_elevators_clears elevator_store elevator_store_cleared).
  vm_compute. reflexivity.
Defined.

(** X3.  Duplicate elimination is idempotent: run on its own result it
    finds no route to delete and returns that store as it is. *)
Theorem remove_atoumod_duplicates_idempotent (db db' : store) :
  remove_atoumod_duplicates db = Some db' →
  remove_atoumod_duplicates db' = Some db'.
Proof.
  intros Hrun.
  destruct (remove_atoumod_duplicates_deleted db)
    as (db1 & Hrun1 & Hroutes & _).
  rewrite Hrun in Hrun1. injection Hrun1 as <-.
  assert (Hnone : ∀ id, ¬ atoumod_duplicate db' id).
  { intros id (d & q & Hd & Hid & Hatm & Hq & Hast & Hforms).
    apply Hroutes in Hd as [Hd Hnot]. apply Hroutes in Hq as [Hq _].
    apply Hnot. exists d, q. rewrite Hid. done. }
  unfold remove_atoumod_duplicates.
  destruct (find_atoumod_routes_elem db' "") as (route_ids & Hfind & _).
  rewrite Hfind. cbn [mbind option_bind].
  assert (route_ids = []) as ->.
  { destruct route_ids as [|id ids]; [done|]. exfalso.
    destruct (find_atoumod_routes_elem db' id) as (ids' & Hfind' & Hid).
    rewrite Hfind in Hfind'. injection Hfind' as <-.
    apply (Hnone id), Hid. left. }
  unfold delete_atoumod_routes. rewrite !delete_in_length.
  cbn [mbind option_bind].
  destruct db'; cbn; do 2 f_equal; apply filter_all; intros ? _;
    apply not_elem_of_nil.
Qed.

Lemma remove_atoumod_duplicates_idempotent_witness :
  remove_atoumod_duplicates
    {| routes := [astuce_a_b; atoumod_bare_slash]; stops := []; stop_times := [];
       trips := [ {| Trips.trip_id := "ATM-T1"; Trips.route_id := "ATM-1";
                     Trips.service_id := "ATM-S" |} ];
       cache_stop_routes := [ {| CacheStopRoutes.stop_id := "ATM-S1";
                                 CacheStopRoutes.route_id := "ATM-1";
                                 CacheStopRoutes.school := false |} ] |}
  = Some {| routes := [astuce_a_b; atoumod_bare_slash]; stops := []; stop_times := [];
       trips := [ {| Trips.trip_id := "ATM-T1"; Trips.route_id := "ATM-1";
                     Trips.service_id := "ATM-S" |} ];
       cache_stop_routes := [ {| CacheStopRoutes.stop_id := "ATM-S1";
                                 CacheStopRoutes.route_id := "ATM-1";
                                 CacheStopRoutes.school := false |} ] |}.
Proof.
  apply (remove_atoumod_duplicates_idempotent slash_store).
  vm_compute. reflexivity.
Defined.

(** The store the three sweeps return, table by table. *)
Lemma orphan_sweeps_eq (db : store) :
  orphan_sweeps db =
  let stop_times' :=
    filter (λ st, StopTimes.stop_id st ∉ find_orphaned_stop_times db)
           (stop_times db) in
  let db1 := {| routes := routes db; stops := stops db; stop_times := stop_times';
                trips := trips db; cache_stop_routes := cache_stop_routes db |} in
  let trips' :=
    filter (λ t, Trips.trip_id t ∉ find_orphaned_trips db1) (trips db) in
  let db2 := {| routes := routes db; stops := stops db; stop_times := stop_times';
                trips := trips'; cache_stop_routes := cache_stop_routes db |} in
  Some {| routes := filter (λ r, Routes.route_id r ∉ find_orphaned_routes db2)
                           (routes db);
          stops := stops db; stop_times := stop_times'; trips := trips';
          cache_stop_routes := cache_stop_routes db |}.
Proof.
  unfold orphan_sweeps, remove_orphaned_stop_times, remove_orphaned_trips,
    remove_orphaned_routes, delete_orphaned_stop_times, delete_orphaned_trips,
    delete_orphaned_routes.
  rewrite delete_in_size. cbn [mbind option_bind].
  rewrite delete_in_size. cbn [mbind option_bind].
  rewrite delete_in_size. reflexivity.
Qed.

Lemma not_orphaned_stop_time (db : store) (st : StopTimes.row) :
  st ∈ stop_times db →
  StopTimes.stop_id st ∉ find_orphaned_stop_times db
  ↔ ∃ s, s ∈ stops db ∧ Stops.stop_id s = StopTimes.stop_id st.
Proof.
  intros Hst. unfold find_orphaned_stop_times. rewrite selected_ids_elem. split.
  - intros Hno.
    destruct (decide (StopTimes.stop_id st ∈ (Stops.stop_id <$> stops db)))
      as [(s & Heq & Hs)%list_elem_of_fmap|Hout]; [eauto|].
    exfalso. apply Hno. eauto.
  - intros (s & Hs & Heq) (st' & _ & Hout & Heq'). apply Hout.
    rewrite Heq', <- Heq. by apply list_elem_of_fmap_2.
Qed.

Lemma not_orphaned_trip (db : store) (t : Trips.row) :
  t ∈ trips db →
  Trips.trip_id t ∉ find_orphaned_trips db
  ↔ ∃ st, st ∈ stop_times db ∧ StopTimes.trip_id st = Trips.trip_id t.
Proof.
  intros Ht. unfold find_orphaned_trips. rewrite selected_ids_elem. split.
  - intros Hno.
    destruct (decide (Trips.trip_id t ∈ (StopTimes.trip_id <$> stop_times db)))
      as [(st & Heq & Hst)%list_elem_of_fmap|Hout]; [eauto|].
    exfalso. apply Hno. eauto.
  - intros (st & Hst & Heq) (t' & _ & Hout & Heq'). apply Hout.
    rewrite Heq', <- Heq. by apply list_elem_of_fmap_2.
Qed.

Lemma not_orphaned_route (db : store) (r : Routes.row) :
  r ∈ routes db →
  Routes.route_id r ∉ find_orphaned_routes db
  ↔ ∃ t, t ∈ trips db ∧ Trips.route_id t = Routes.route_id r.
Proof.
  intros Hr. unfold find_orphaned_routes. rewrite selected_ids_elem. split.
  - intros Hno.
    destruct (decide (Routes.route_id r ∈ (Trips.route_id <$> trips db)))
      as [(t & Heq & Ht)%list_elem_of_fmap|Hout]; [eauto|].
    exfalso. apply Hno. eauto.
  - intros (t & Ht & Heq) (r' & _ & Hout & Heq'). apply Hout.
    rewrite Heq', <- Heq. by apply list_elem_of_fmap_2.
Qed.

(** The three sweeps, table by table. *)
Lemma orphan_sweeps_run (db : store) :
  ∃ db',
    orphan_sweeps db = Some db'
    ∧ stops db' = stops db
    ∧ cache_stop_routes db' = cache_stop_routes db
    ∧ (∀ st, st ∈ stop_times db' ↔
             st ∈ stop_times db
             ∧ ∃ s, s ∈ stops db ∧ Stops.stop_id s = StopTimes.stop_id st)
    ∧ (∀ t, t ∈ trips db' ↔
            t ∈ trips db
            ∧ ∃ st, st ∈ stop_times db' ∧ StopTimes.trip_id st = Trips.trip_id t)
    ∧ (∀ r, r ∈ routes db' ↔
            r ∈ routes db
            ∧ ∃ t, t ∈ trips db' ∧ Trips.route_id t = Routes.route_id r).
Proof.
  rewrite orphan_sweeps_eq. cbv zeta. eexists. split; [reflexivity|].
  cbn [routes stops stop_times trips cache_stop_routes].
  split; [done|]. split; [done|]. split; [|split].
  - intros st. rewrite list_elem_of_filter. split.
    + intros [Hkeep Hst]. split; [done|]. by apply not_orphaned_stop_time.
    + intros [Hst Hs]. split; [|done]. by apply not_orphaned_stop_time.
  - intros t. rewrite list_elem_of_filter. split.
    + intros [Hkeep Ht]. split; [done|].
      by apply (not_orphaned_trip {| trips := trips db |}) in Hkeep.
    + intros [Ht Hst]. split; [|done].
      by apply (not_orphaned_trip {| trips := trips db |}).
  - intros r. rewrite list_elem_of_filter. split.
    + intros [Hkeep Hr]. split; [done|].
      by apply (not_orphaned_route {| routes := routes db |}) in Hkeep.
    + intros [Hr Ht]. split; [|done].
      by apply (not_orphaned_route {| routes := routes db |}).
Qed.

(** X4.  The store the three sweeps return holds exactly the stop_times
    whose stop exists, the trips that still have one of these
    stop_times and the routes that still have one of these trips; the
    stops and the cache are as they were, the rows of the cache staying
    even when their route goes. *)
Theorem orphan_sweeps_keep_exactly (db db' : store) :
  orphan_sweeps db = Some db' →
  stops db' = stops db
  ∧ cache_stop_routes db' = cache_stop_routes db
  ∧ (∀ st, st ∈ stop_times db' ↔
           st ∈ stop_times db
           ∧ ∃ s, s ∈ stops db ∧ Stops.stop_id s = StopTimes.stop_id st)
  ∧ (∀ t, t ∈ trips db' ↔
          t ∈ trips db
          ∧ ∃ st, st ∈ stop_times db' ∧ StopTimes.trip_id st = Trips.trip_id t)
  ∧ (∀ r, r ∈ routes db' ↔
          r ∈ routes db
          ∧ ∃ t, t ∈ trips db' ∧ Trips.route_id t = Routes.route_id r).
Proof.
  intros Hrun.
  destruct (orphan_sweeps_run db) as (db'' & Hrun' & Hkept).
  rewrite Hrun in Hrun'. injection Hrun' as <-. exact Hkept.
Qed.

Lemma orphan_sweeps_keep_exactly_witness :
  stops elevator_store_swept = stops elevator_store_cleared
  ∧ cache_stop_routes elevator_store_swept
    = cache_stop_routes elevator_store_cleared
  ∧ (∀ st, st ∈ stop_times elevator_store_swept ↔
           st ∈ stop_times elevator_store_cleared
           ∧ ∃ s, s ∈ stops elevator_store_cleared
                  ∧ Stops.stop_id s = StopTimes.stop_id st).
Proof.
  destruct (orphan_sweeps_keep_exactly elevator_store_cleared
              elevator_store_swept) as (Hstops & Hcache & Htimes & _).
  - vm_compute. reflexivity.
  - split; [exact Hstops|]. split; [exact Hcache|exact Htimes].
Defined.

(** X5.  A store without orphans is a fixed point of the sweeps. *)
Theorem orphan_sweeps_fixed_point (db : store) :
  no_orphans db → orphan_sweeps db = Some db.
Proof.
  intros (Hst & Ht & Hr). rewrite orphan_sweeps_eq. cbv zeta.
  assert (H1 : filter (λ st, StopTimes.stop_id st ∉ find_orphaned_stop_times db)
                      (stop_times db) = stop_times db).
  { apply filter_all. intros st Hin. apply not_orphaned_stop_time; auto. }
  rewrite H1. rewrite (store_eta db).
  assert (H2 : filter (λ t, Trips.trip_id t ∉ find_orphaned_trips db) (trips db)
               = trips db).
  { apply filter_all. intros t Hin. apply not_orphaned_trip; auto. }
  rewrite H2. rewrite (store_eta db).
  assert (H3 : filter (λ r, Routes.route_id r ∉ find_orphaned_routes db) (routes db)
               = routes db).
  { apply filter_all. intros r Hin. apply not_orphaned_route; auto. }
  rewrite H3. by rewrite store_eta.
Qed.

Lemma orphan_sweeps_fixed_point_witness :
  orphan_sweeps
    {| routes := routes shared_store; stops := stops shared_store;
       stop_times := stop_times shared_store; trips := trips shared_store;
       cache_stop_routes := [] |}
  = Some {| routes := routes shared_store; stops := stops shared_store;
            stop_times := stop_times shared_store; trips := trips shared_store;
            cache_stop_routes := [] |}.
Proof.
  apply orphan_sweeps_fixed_point. unfold no_orphans. cbn.
  split; [|split].
  - intros st Hst. eexists. split; [left|].
    repeat (apply elem_of_cons in Hst as [->|Hst]; [reflexivity|]).
    by apply not_elem_of_nil in Hst.
  - intros t Ht.
    apply elem_of_cons in Ht as [->|Ht]; [eexists; split; [left|reflexivity]|].
    apply elem_of_cons in Ht as [->|Ht];
      [eexists; split; [right; left|reflexivity]|].
    by apply not_elem_of_nil in Ht.
  - intros r Hr. eexists. split; [left|].
    apply elem_of_cons in Hr as [->|Hr]; [reflexivity|].
    by apply not_elem_of_nil in Hr.
Defined.

Lemma remove_elevators_shrinks (db : store) :
  ∃ db',
    remove_elevators db = Some db'
    ∧ routes db' ⊆ routes db ∧ stops db' ⊆ stops db
    ∧ stop_times db' = stop_times db
    ∧ trips db' ⊆ trips db
    ∧ cache_stop_routes db' ⊆ cache_stop_routes db
    ∧ (∀ s, s ∈ stops db' → ¬ elevator_stop s)
    ∧ (∀ t, t ∈ trips db' → ¬ elevator_trip t).
Proof.
  unfold remove_elevators. rewrite remove_trips_eq. cbv zeta.
  cbn [mbind option_bind]. eexists. split; [reflexivity|].
  cbn [routes stops stop_times trips cache_stop_routes delete_elevator_stops].
  repeat split.
  - apply list_subseteq_filter.
  - etrans; [apply list_subseteq_filter|]. etrans; apply list_subseteq_filter.
  - apply list_subseteq_filter.
  - apply list_subseteq_filter.
  - intros s [Hs _]%list_elem_of_filter. unfold elevator_stop. by rewrite Hs.
  - intros t [Hnot Ht]%list_elem_of_filter Helev. apply Hnot.
    apply list_elem_of_fmap. exists t. split; [done|].
    by apply list_elem_of_filter.
Qed.

Lemma orphan_sweeps_shrinks (db : store) :
  ∃ db',
    orphan_sweeps db = Some db'
    ∧ no_orphans db'
    ∧ routes db' ⊆ routes db ∧ stops db' = stops db
    ∧ stop_times db' ⊆ stop_times db
    ∧ trips db' ⊆ trips db
    ∧ cache_stop_routes db' = cache_stop_routes db.
Proof.
  rewrite orphan_sweeps_eq. cbv zeta. eexists. split; [reflexivity|].
  cbn [routes stops stop_times trips cache_stop_routes].
  split; [|repeat split; apply list_subseteq_filter].
  unfold no_orphans. cbn [routes stops stop_times trips cache_stop_routes].
  split; [|split].
  - intros st [Hkeep Hst]%list_elem_of_filter.
    by apply not_orphaned_stop_time.
  - intros t [Hkeep Ht]%list_elem_of_filter.
    by apply (not_orphaned_trip {| trips := trips db |}) in Hkeep.
  - intros r [Hkeep Hr]%list_elem_of_filter.
    by apply (not_orphaned_route {| routes := routes db |}) in Hkeep.
Qed.

(** The reconciliation steps, one after the other. *)
Lemma reconciliation_steps_run (db : store) :
  ∃ db',
    reconciliation_steps db = Some db'
    ∧ no_orphans db'
    ∧ (∀ s, s ∈ stops db' → ¬ elevator_stop s)
    ∧ (∀ t, t ∈ trips db' → ¬ elevator_trip t)
    ∧ (∀ id, ¬ atoumod_duplicate db' id)
    ∧ routes db' ⊆ routes db ∧ stops db' ⊆ stops db
    ∧ stop_times db' ⊆ stop_times db ∧ trips db' ⊆ trips db
    ∧ cache_stop_routes db' ⊆ cache_stop_routes db.
Proof.
  unfold reconciliation_steps.
  destruct (remove_atoumod_duplicates_deleted db)
    as (db1 & -> & Hroutes1 & Htrips1 & Hcache1 & Hstops1 & Htimes1).
  cbn [mbind option_bind].
  destruct (remove_elevators_shrinks db1)
    as (db2 & -> & Hr2 & Hs2 & Hst2 & Ht2 & Hc2 & Hno_stop & Hno_trip).
  cbn [mbind option_bind].
  destruct (orphan_sweeps_shrinks db2)
    as (db3 & -> & Hclean & Hr3 & Hs3 & Hst3 & Ht3 & Hc3).
  exists db3. split; [done|]. split; [done|].
  split; [intros s Hs; apply Hno_stop; by rewrite <- Hs3|].
  split; [intros t Ht; apply Hno_trip; by apply Ht3|].
  split; [|repeat split].
  - intros id (d & q & Hd & Hid & Hatm & Hq & Hast & Hforms).
    apply Hr3, Hr2, Hroutes1 in Hd as [Hd Hnot].
    apply Hr3, Hr2, Hroutes1 in Hq as [Hq _].
    apply Hnot. exists d, q. rewrite Hid. done.
  - intros r Hr. by apply Hr3, Hr2, Hroutes1 in Hr as [Hr _].
  - rewrite Hs3. intros s Hs. apply Hs2 in Hs. by rewrite Hstops1 in Hs.
  - intros st Hst. apply Hst3 in Hst. by rewrite Hst2, Htimes1 in Hst.
  - intros t Ht. by apply Ht3, Ht2, Htrips1 in Ht as [Ht _].
  - rewrite Hc3. intros c Hc. by apply Hc2, Hcache1 in Hc as [Hc _].
Qed.

(** X6.  The store the reconciliation steps return, run in the order
    of [generate_transport_database], is made of rows of the store they
    got; it has no orphan, no elevator stop, no elevator trip, and no
    AtouMod route named after a form of a Reseau Astuce route that is
    still there. *)
Theorem reconciliation_steps_result (db db' : store) :
  reconciliation_steps db = Some db' →
  no_orphans db'
  ∧ (∀ s, s ∈ stops db' → ¬ elevator_stop s)
  ∧ (∀ t, t ∈ trips db' → ¬ elevator_trip t)
  ∧ (∀ id, ¬ atoumod_duplicate db' id)
  ∧ routes db' ⊆ routes db ∧ stops db' ⊆ stops db
  ∧ stop_times db' ⊆ stop_times db ∧ trips db' ⊆ trips db
  ∧ cache_stop_routes db' ⊆ cache_stop_routes db.
Proof.
  intros Hrun.
  destruct (reconciliation_steps_run db) as (db'' & Hrun' & Hresult).
  rewrite Hrun in Hrun'. injection Hrun' as <-. exact Hresult.
Qed.

Lemma reconciliation_steps_result_witness : no_orphans elevator_store_swept.
Proof.
  apply (reconciliation_steps_result elevator_store elevator_store_swept).
  vm_compute. reflexivity.
Defined.

(** ** More on distance and direction *)

Section MoreGeometryFacts.
Local Open Scope R_scope.

Lemma sin_sq_opp (x y : R) : sin ((x - y) / 2) ^ 2 = sin ((y - x) / 2) ^ 2.
Proof.
  replace ((x - y) / 2) with (- ((y - x) / 2)) by lra.
  rewrite sin_neg. lra.
Qed.

Lemma haversine_swap (lat1 lon1 lat2 lon2 : R) :
  sin ((lat2 - lat1) / 2) ^ 2 + cos lat1 * cos lat2 * sin ((lon2 - lon1) / 2) ^ 2
  = sin ((lat1 - lat2) / 2) ^ 2 + cos lat2 * cos lat1 * sin ((lon1 - lon2) / 2) ^ 2.
Proof.
  rewrite (sin_sq_opp lat2 lat1), (sin_sq_opp lon2 lon1).
  rewrite (Rmult_comm (cos lat1) (cos lat2)). reflexivity.
Qed.

(** X7.  The distance is symmetric: exchanging the two points changes
    neither the result nor whether there is one. *)
Theorem gps_distance_symmetric (lat1 lon1 lat2 lon2 : R) :
  gps_distance lat1 lon1 lat2 lon2 = gps_distance lat2 lon2 lat1 lon1.
Proof.
  unfold gps_distance. by rewrite haversine_swap.
Qed.

Lemma gps_distance_here (lat lon : R) : gps_distance lat lon lat lon = Some 0.
Proof.
  apply gps_distance_some. cbv zeta.
  replace ((lat - lat) / 2) with 0 by lra.
  replace ((lon - lon) / 2) with 0 by lra.
  rewrite sin_0.
  replace (0 ^ 2 + cos lat * cos lat * 0 ^ 2) with 0 by lra.
  rewrite sqrt_0, asin_0. pose proof earth_diameter_pos. split; [lra|].
  split; lra.
Qed.

Lemma compare_positions_here (lat lon : R) :
  compare_positions lat lon lat lon = Some (0%Z, "").
Proof.
  apply compare_positions_some. exists 0.
  split; [apply gps_distance_here|].
  split; [by rewrite (int_of_real_IZR 0)|]. left. split; [lra|done].
Qed.

(** X8.  A distance that [gps_distance] returns lies between 0 and a
    quarter of the circumference of the sphere, EARTH_DIAMETER * PI / 2;
    from a point to itself it is 0. *)
Theorem gps_distance_bounds (lat1 lon1 lat2 lon2 : R) :
  (∀ distance,
     gps_distance lat1 lon1 lat2 lon2 = Some distance →
     0 <= distance <= EARTH_DIAMETER * PI / 2)
  ∧ gps_distance lat1 lon1 lat1 lon1 = Some 0.
Proof.
  pose proof earth_diameter_pos as HD. split.
  - intros distance (Hh & Hroot & ->)%gps_distance_some. cbv zeta in *.
    set (root := sqrt _) in *.
    pose proof (sqrt_pos (sin ((lat2 - lat1) / 2) ^ 2
                          + cos lat1 * cos lat2 * sin ((lon2 - lon1) / 2) ^ 2))
      as Hpos. fold root in Hpos.
    pose proof (asin_nonneg root (conj Hpos Hroot)) as H0.
    pose proof (asin_bound root) as [_ H1]. nra.
  - apply gps_distance_here.
Qed.

Lemma gps_distance_bounds_witness :
  0 <= EARTH_DIAMETER * (radians north_100m - radians 0) / 2
    <= EARTH_DIAMETER * PI / 2.
Proof.
  pose proof PI2_3_2 as Hpi.
  assert (Hrad : radians north_100m - radians 0 = 200 / EARTH_DIAMETER).
  { unfold radians, north_100m, EARTH_DIAMETER. field. lra. }
  apply (proj1 (gps_distance_bounds (radians 0) (radians 0)
                  (radians north_100m) (radians 0))).
  apply gps_distance_some. cbv zeta.
  replace ((radians 0 - radians 0) / 2) with 0 by lra.
  rewrite sin_0, Hrad.
  replace (sin (200 / EARTH_DIAMETER / 2) ^ 2
           + cos (radians 0) * cos (radians north_100m) * 0 ^ 2)
    with (sin (200 / EARTH_DIAMETER / 2) ^ 2) by lra.
  assert (Hsmall : 0 <= 200 / EARTH_DIAMETER / 2 <= 1).
  { unfold EARTH_DIAMETER. lra. }
  assert (Hsin : 0 <= sin (200 / EARTH_DIAMETER / 2))
    by (apply sin_ge_0; lra).
  rewrite sqrt_pow2 by done.
  split; [nra|]. split; [apply SIN_bound|].
  rewrite asin_sin by lra. lra.
Defined.

Lemma opposite_app (a b : string) :
  opposite (a +:+ b) = opposite a +:+ opposite b.
Proof.
  induction a as [|c a IH]; [done|].
  rewrite string_app_cons. cbn [opposite]. by rewrite IH.
Qed.

Lemma axis_label_opp (angle : R) :
  axis_label (- angle) "N" "S" = opposite (axis_label angle "N" "S")
  ∧ axis_label (- angle) "E" "W" = opposite (axis_label angle "E" "W").
Proof.
  pose proof sin_octant_bounds as Hs. unfold axis_label.
  destruct (real_lt (sin (radians (45 / 2))) angle) eqn:A1,
    (real_lt angle (- sin (radians (45 / 2)))) eqn:A2,
    (real_lt (sin (radians (45 / 2))) (- angle)) eqn:B1,
    (real_lt (- angle) (- sin (radians (45 / 2)))) eqn:B2;
    rewrite ?real_lt_true, ?real_lt_false in *;
    first [ split; reflexivity | lra ].
Qed.

(** X9.  Seen from the other point the direction is the opposite one:
    when [compare_positions] returns a distance and a label, it returns
    for the exchanged points the same distance and the label with north
    and south, east and west exchanged. *)
Theorem compare_positions_reverse (lat1 lon1 lat2 lon2 : R) (z : Z)
    (direction : string) :
  compare_positions lat1 lon1 lat2 lon2 = Some (z, direction) →
  compare_positions lat2 lon2 lat1 lon1 = Some (z, opposite direction).
Proof.
  intros (distance & Hgps & -> & Hcases)%compare_positions_some.
  apply compare_positions_some. exists distance.
  split.
  { apply gps_distance_some in Hgps. apply gps_distance_some. cbv zeta in *.
    by rewrite haversine_swap. }
  split; [done|].
  destruct Hcases as [[Hnear ->]|(Hfar & Hlat & Hlon & ->)]; [by left|right].
  split; [done|]. split; [lra|]. split; [lra|].
  rewrite opposite_app.
  replace (radians lat1 - radians lat2) with (- (radians lat2 - radians lat1))
    by lra.
  replace (radians lon1 - radians lon2) with (- (radians lon2 - radians lon1))
    by lra.
  rewrite !asin_opp.
  replace (- asin (radians lat2 - radians lat1) * EARTH_DIAMETER / distance)
    with (- (asin (radians lat2 - radians lat1) * EARTH_DIAMETER / distance))
    by (unfold Rdiv; ring).
  replace (- asin (radians lon2 - radians lon1) * EARTH_DIAMETER / distance)
    with (- (asin (radians lon2 - radians lon1) * EARTH_DIAMETER / distance))
    by (unfold Rdiv; ring).
  rewrite (proj1 (axis_label_opp _)), (proj2 (axis_label_opp _)). reflexivity.
Qed.

(** The point 100 m north of (0, 0), seen from (0, 0). *)
Lemma north_100m_seen : compare_positions 0 0 north_100m 0 = Some (100%Z, "N").
Proof.
  pose proof PI2_3_2 as Hpi. pose proof sin_octant_bounds as Hs.
  assert (Hrad : radians north_100m - radians 0 = 200 / EARTH_DIAMETER).
  { unfold radians, north_100m, EARTH_DIAMETER. field. lra. }
  assert (Hsmall : 0 < 200 / EARTH_DIAMETER <= 1).
  { unfold EARTH_DIAMETER. lra. }
  apply compare_positions_some. exists 100. split; [|split].
  - apply gps_distance_some. cbv zeta.
    replace ((radians 0 - radians 0) / 2) with 0 by lra.
    rewrite sin_0, Hrad.
    replace (sin (200 / EARTH_DIAMETER / 2) ^ 2
             + cos (radians 0) * cos (radians north_100m) * 0 ^ 2)
      with (sin (200 / EARTH_DIAMETER / 2) ^ 2) by lra.
    assert (Hsin : 0 <= sin (200 / EARTH_DIAMETER / 2))
      by (apply sin_ge_0; lra).
    rewrite sqrt_pow2 by done.
    split; [nra|]. split; [apply SIN_bound|].
    rewrite asin_sin by lra. unfold EARTH_DIAMETER. field.
  - by rewrite (int_of_real_IZR 100).
  - right. split; [lra|]. rewrite Hrad. split; [lra|].
    replace (radians 0 - radians 0) with 0 by lra.
    split; [lra|]. rewrite asin_0. unfold axis_label.
    replace (0 * EARTH_DIAMETER / 100) with 0 by lra.
    rewrite (proj2 (real_lt_false (sin (radians (45 / 2))) 0)) by lra.
    rewrite (proj2 (real_lt_false 0 (- sin (radians (45 / 2))))) by lra.
    rewrite (proj2 (real_lt_true (sin (radians (45 / 2))) _)); [done|].
    pose proof (asin_ge_id (200 / EARTH_DIAMETER)) as Hasin.
    unfold EARTH_DIAMETER in *. lra.
Qed.

Lemma compare_positions_reverse_witness :
  compare_positions north_100m 0 0 0 = Some (100%Z, "S").
Proof.
  apply (compare_positions_reverse 0 0 north_100m 0 100 "N").
  exact north_100m_seen.
Defined.

End MoreGeometryFacts.

(** ** More on the clustering of the transit rows *)

(** Whether the loop of [prepare_stations] passes over a row. *)
Lemma prepare_station_cases state row :
  (covered state.2 (StationRow.route_short_name row) (is_school row)
   ∧ prepare_station state row = state)
  ∨ (¬ covered state.2 (StationRow.route_short_name row) (is_school row)
     ∧ (prepare_station state row).2
       = {[ (StationRow.route_short_name row, is_school row) ]} ∪ state.2
     ∧ ∀ name,
         (prepare_station state row).1 !! name
         = if decide (name = StationRow.stop_name row)
           then Some
             match state.1 !! name with
             | Some g =>
                 {| Group.points := Group.points g ++ [station_point row];
                    Group.distance_min :=
                      Z.min (Group.distance_min g)
                            (int_of_float (StationRow.distance row));
                    Group.distance_max :=
                      Z.max (Group.distance_max g)
                            (int_of_float (StationRow.distance row)) |}
             | None =>
                 {| Group.points := [station_point row];
                    Group.distance_min :=
                      Z.min (int_of_float (StationRow.distance row))
                            (int_of_float (StationRow.distance row));
                    Group.distance_max :=
                      Z.max (int_of_float (StationRow.distance row))
                            (int_of_float (StationRow.distance row)) |}
             end
           else state.1 !! name).
Proof.
  destruct state as [near_points used].
  destruct (decide (covered used (StationRow.route_short_name row)
                      (is_school row))) as [Hcov|Hnew].
  { left. split; [done|]. by apply prepare_station_skips. }
  right. split; [done|].
  unfold covered in Hnew. unfold prepare_station.
  rewrite bool_decide_eq_false_2 by tauto.
  assert (is_school row && bool_decide
            ((StationRow.route_short_name row, false) ∈ used) = false) as ->.
  { destruct (is_school row) eqn:Hs; [|done]. cbn.
    apply bool_decide_eq_false_2. tauto. }
  cbn [fst snd]. split; [done|]. intros name.
  destruct (decide (name = StationRow.stop_name row)) as [->|Hne].
  - rewrite !lookup_alter_eq.
    destruct (near_points !! StationRow.stop_name row) as [g|] eqn:Hg.
    + rewrite Hg. reflexivity.
    + rewrite lookup_insert_eq. reflexivity.
  - rewrite !lookup_alter_ne by done.
    destruct (near_points !! StationRow.stop_name row); [done|].
    by rewrite lookup_insert_ne.
Qed.

(** X10.  Every group of the result holds at least one entry, its
    least distance is at most its greatest, and each of its entries was
    made from a candidate row of that stop name whose distance, cut to
    an integer, lies between the two. *)
Theorem prepare_stations_groups (rows : list StationRow.row) (name : string)
    (g : Group.t) :
  prepare_stations rows !! name = Some g →
  Group.points g ≠ []
  ∧ (Group.distance_min g <= Group.distance_max g)%Z
  ∧ ∀ p, p ∈ Group.points g →
         ∃ r, r ∈ rows ∧ StationRow.stop_name r = name ∧ p = station_point r
              ∧ (Group.distance_min g <= int_of_float (StationRow.distance r)
                 <= Group.distance_max g)%Z.
Proof.
  unfold prepare_stations. revert name g.
  induction rows as [|row rows IH] using rev_ind; intros name g Hg.
  { cbn in Hg. by rewrite lookup_empty in Hg. }
  rewrite foldl_app in Hg. cbn [foldl] in Hg.
  set (state := foldl prepare_station (∅, ∅) rows) in *.
  assert (Hold : ∀ name g, state.1 !! name = Some g →
            Group.points g ≠ []
            ∧ (Group.distance_min g <= Group.distance_max g)%Z
            ∧ ∀ p, p ∈ Group.points g →
                ∃ r, r ∈ (rows ++ [row])%list ∧ StationRow.stop_name r = name
                     ∧ p = station_point r
                     ∧ (Group.distance_min g
                        <= int_of_float (StationRow.distance r)
                        <= Group.distance_max g)%Z).
  { intros name' g' Hg'. destruct (IH name' g' Hg') as (Hne & Hle & Hpts).
    split; [done|]. split; [done|]. intros p Hp.
    destruct (Hpts p Hp) as (r & Hr & ?). exists r.
    split; [|done]. apply elem_of_app. by left. }
  destruct (prepare_station_cases state row) as [[_ Heq]|(_ & _ & Hlookup)].
  { rewrite Heq in Hg. by apply Hold. }
  rewrite Hlookup in Hg.
  destruct (decide (name = StationRow.stop_name row)) as [->|Hne];
    [|by apply Hold].
  assert (Hrow : row ∈ (rows ++ [row])%list) by (apply elem_of_app; right; left).
  destruct (state.1 !! StationRow.stop_name row) as [g0|] eqn:Hg0;
    injection Hg as <-; cbn [Group.points Group.distance_min Group.distance_max].
  - destruct (Hold _ _ Hg0) as (Hne0 & Hle0 & Hpts0).
    split; [by destruct (Group.points g0)|]. split; [lia|].
    intros p [Hp|Hp]%elem_of_app.
    + destruct (Hpts0 p Hp) as (r & Hr & Hname & Hpt & Hd).
      exists r. repeat split; try done; lia.
    + apply list_elem_of_singleton in Hp as ->.
      exists row. repeat split; try done; lia.
  - split; [done|]. split; [lia|].
    intros p Hp. apply list_elem_of_singleton in Hp as ->.
    exists row. repeat split; try done; lia.
Qed.

Lemma prepare_stations_groups_witness :
  Group.points {| Group.points := [station_point row_gare];
                  Group.distance_min := 10; Group.distance_max := 10 |} ≠ [].
Proof.
  apply (prepare_stations_groups [row_gare; row_mairie] "Gare").
  vm_compute. reflexivity.
Defined.


Lemma keys_once_step state row :
  keys_once state → keys_once (prepare_station state row).
Proof.
  intros [Hused Hone].
  destruct (prepare_station_cases state row)
    as [[_ ->]|(Hnew & Hused' & Hlookup)]; [done|].
  assert (Hfresh : (StationRow.route_short_name row, is_school row) ∉ state.2).
  { intros Hin. apply Hnew. by left. }
  (* the entries of a group after the step: the old ones, then maybe the new one *)
  assert (Hpoints : ∀ name g i p,
    (prepare_station state row).1 !! name = Some g →
    Group.points g !! i = Some p →
    (∃ g0, state.1 !! name = Some g0 ∧ Group.points g0 !! i = Some p)
    ∨ (name = StationRow.stop_name row ∧ p = station_point row
       ∧ i = match state.1 !! name with
             | Some g0 => length (Group.points g0)
             | None => 0%nat
             end)).
  { intros name g i p Hg Hp. rewrite Hlookup in Hg.
    destruct (decide (name = StationRow.stop_name row)) as [->|Hne]; [|eauto].
    destruct (state.1 !! StationRow.stop_name row) as [g0|] eqn:Hg0;
      injection Hg as <-; cbn [Group.points] in Hp.
    - apply lookup_app_Some in Hp as [Hp|[Hlen Hp]]; [eauto|].
      right. apply list_lookup_singleton_Some in Hp as [Hi <-].
      repeat split. lia.
    - right. apply list_lookup_singleton_Some in Hp as [-> <-]. done. }
  split.
  - intros name g p Hg Hp. rewrite Hused'.
    apply list_elem_of_lookup in Hp as [i Hp].
    destruct (Hpoints name g i p Hg Hp) as [(g0 & Hg0 & Hp0)|(_ & -> & _)].
    + apply elem_of_union_r. apply (Hused name g0); [done|].
      by apply list_elem_of_lookup_2 in Hp0.
    + apply elem_of_union_l, elem_of_singleton. done.
  - intros name1 name2 g1 g2 i j p1 p2 Hg1 Hg2 Hp1 Hp2 Hname Hschool.
    destruct (Hpoints name1 g1 i p1 Hg1 Hp1) as [(g1' & Hg1' & Hp1')|(-> & -> & ->)],
      (Hpoints name2 g2 j p2 Hg2 Hp2) as [(g2' & Hg2' & Hp2')|(-> & -> & ->)].
    + by apply (Hone name1 name2 g1' g2' i j p1 p2).
    + exfalso. apply Hfresh.
      replace (StationRow.route_short_name row) with (Point.name p1)
        by (by rewrite Hname).
      replace (is_school row) with (Point.school p1) by (by rewrite Hschool).
      apply (Hused name1 g1'); [done|]. by apply list_elem_of_lookup_2 in Hp1'.
    + exfalso. apply Hfresh.
      replace (StationRow.route_short_name row) with (Point.name p2)
        by (by rewrite <- Hname).
      replace (is_school row) with (Point.school p2) by (by rewrite <- Hschool).
      apply (Hused name2 g2'); [done|]. by apply list_elem_of_lookup_2 in Hp2'.
    + done.
Qed.

(** X11.  In the whole result a key (route short name, school flag)
    occurs once: two entries with the same key, in whatever groups, are
    one entry of one group. *)
Theorem prepare_stations_keys_once (rows : list StationRow.row)
    (name1 name2 : string) (g1 g2 : Group.t) (i j : nat) (p1 p2 : Point.t) :
  prepare_stations rows !! name1 = Some g1 →
  prepare_stations rows !! name2 = Some g2 →
  Group.points g1 !! i = Some p1 →
  Group.points g2 !! j = Some p2 →
  Point.name p1 = Point.name p2 →
  Point.school p1 = Point.school p2 →
  name1 = name2 ∧ i = j.
Proof.
  assert (Hinv : keys_once (foldl prepare_station (∅, ∅) rows)).
  { induction rows as [|row rows IH] using rev_ind.
    - split.
      + intros name g p Hg. cbn [foldl fst] in Hg.
        by rewrite lookup_empty in Hg.
      + intros name1' name2' g1' g2' i' j' p1' p2' Hg. cbn [foldl fst] in Hg.
        by rewrite lookup_empty in Hg.
    - rewrite foldl_app. by apply keys_once_step. }
  apply Hinv.
Qed.

Lemma prepare_stations_keys_once_witness : "Gare" = "Gare" ∧ 0%nat = 0%nat.
Proof.
  apply (prepare_stations_keys_once [row_gare; row_mairie] "Gare" "Gare"
           {| Group.points := [station_point row_gare];
              Group.distance_min := 10; Group.distance_max := 10 |}
           {| Group.points := [station_point row_gare];
              Group.distance_min := 10; Group.distance_max := 10 |}
           0 0 (station_point row_gare) (station_point row_gare));
    try reflexivity; vm_compute; reflexivity.
Defined.

(** ** Clustering of the cycle rows *)

Lemma prepare_cycle_stop_some (latitude longitude : Q)
    (near_points : gmap (option string) CycleGroup.t) (row : CycleRow.row) :
  match compare_positions (Q2R latitude) (Q2R longitude)
          (Q2R (CycleRow.lat row)) (Q2R (CycleRow.lon row)) with
  | None => prepare_cycle_stop latitude longitude near_points row = None
  | Some _ =>
      ∃ near_points',
        prepare_cycle_stop latitude longitude near_points row = Some near_points'
        ∧ ∀ name,
            near_points' !! name
            = if decide (name = CycleRow.name row)
              then Some
                match near_points !! name with
                | Some g =>
                    {| CycleGroup.points := CycleGroup.points g ++ [cycle_point row];
                       CycleGroup.distance_min := CycleGroup.distance_min g;
                       CycleGroup.distance_max := CycleGroup.distance_max g |}
                | None =>
                    {| CycleGroup.points := [cycle_point row];
                       CycleGroup.distance_min :=
                         int_of_float (CycleRow.distance row);
                       CycleGroup.distance_max :=
                         int_of_float (CycleRow.distance row) |}
                end
              else near_points !! name
  end.
Proof.
  unfold prepare_cycle_stop.
  destruct (compare_positions _ _ _ _) as [direction|]; [|done].
  cbn [mbind option_bind]. eexists. split; [reflexivity|]. intros name.
  destruct (decide (name = CycleRow.name row)) as [->|Hne].
  - rewrite lookup_alter_eq.
    destruct (near_points !! CycleRow.name row) as [g|] eqn:Hg.
    + rewrite Hg. reflexivity.
    + rewrite lookup_insert_eq. reflexivity.
  - rewrite lookup_alter_ne by done.
    destruct (near_points !! CycleRow.name row); [done|].
    by rewrite lookup_insert_ne.
Qed.

Lemma prepare_cycle_rows_groups (latitude longitude : Q)
    (rows : list CycleRow.row) (near_points near_points' : gmap (option string) CycleGroup.t) :
  cycle_groups_frozen near_points →
  prepare_cycle_rows latitude longitude near_points rows = Some near_points' →
  cycle_groups_frozen near_points'
  ∧ (∀ name g p, near_points !! name = Some g → p ∈ CycleGroup.points g →
       ∃ g', near_points' !! name = Some g' ∧ p ∈ CycleGroup.points g')
  ∧ (∀ r, r ∈ rows →
       ∃ g, near_points' !! CycleRow.name r = Some g
            ∧ cycle_point r ∈ CycleGroup.points g).
Proof.
  revert near_points.
  induction rows as [|row rows IH]; intros near_points Hinv Hrun.
  { injection Hrun as <-. split; [done|]. split; [eauto|].
    intros r Hr. by apply not_elem_of_nil in Hr. }
  cbn [prepare_cycle_rows] in Hrun.
  pose proof (prepare_cycle_stop_some latitude longitude near_points row) as Hstep.
  destruct (compare_positions _ _ _ _) as [direction|];
    [|by rewrite Hstep in Hrun].
  destruct Hstep as (mid & Hmid & Hlookup). rewrite Hmid in Hrun.
  cbn [mbind option_bind] in Hrun.
  assert (Hinv_mid : cycle_groups_frozen mid).
  { intros name g Hg. rewrite Hlookup in Hg.
    destruct (decide (name = CycleRow.name row)) as [->|Hne];
      [|exact (Hinv _ _ Hg)].
    destruct (near_points !! CycleRow.name row) as [g0|] eqn:Hg0;
      injection Hg as <-; cbn.
    - destruct (Hinv _ _ Hg0) as (p & rest & Hpts & Hmin & Hmax).
      exists p, (rest ++ [cycle_point row])%list. rewrite Hpts. done.
    - exists (cycle_point row), []. done. }
  assert (Hkeep_mid : ∀ name g p, near_points !! name = Some g →
            p ∈ CycleGroup.points g →
            ∃ g', mid !! name = Some g' ∧ p ∈ CycleGroup.points g').
  { intros name g p Hg Hp. rewrite Hlookup.
    destruct (decide (name = CycleRow.name row)) as [->|Hne]; [|eauto].
    rewrite Hg. eexists. split; [done|]. cbn. apply elem_of_app. by left. }
  assert (Hrow_mid : ∃ g, mid !! CycleRow.name row = Some g
                          ∧ cycle_point row ∈ CycleGroup.points g).
  { rewrite Hlookup. rewrite decide_True by done. eexists. split; [done|].
    destruct (near_points !! CycleRow.name row); cbn;
      [apply elem_of_app; right; left|left]. }
  destruct (IH mid Hinv_mid Hrun) as (Hinv' & Hkeep' & Hrows').
  split; [done|]. split.
  - intros name g p Hg Hp.
    destruct (Hkeep_mid name g p Hg Hp) as (g1 & Hg1 & Hp1). eauto.
  - intros r [->|Hr]%elem_of_cons; [|by apply Hrows'].
    destruct Hrow_mid as (g & Hg & Hp). eauto.
Qed.

(** X12.  In the cycle result the least and the greatest distance of a
    group are both the distance of its first entry: they are set when
    the group is made and never updated.  Every candidate row has its
    entry in the group of its name; none is dropped. *)
Theorem prepare_cycle_stops_groups (latitude longitude : Q)
    (rows : list CycleRow.row) (near_points : gmap (option string) CycleGroup.t) :
  prepare_cycle_stops latitude longitude rows = Some near_points →
  (∀ name g, near_points !! name = Some g →
     ∃ p rest,
       CycleGroup.points g = p :: rest
       ∧ CycleGroup.distance_min g = CyclePoint.distance p
       ∧ CycleGroup.distance_max g = CyclePoint.distance p)
  ∧ (∀ r, r ∈ rows →
       ∃ g, near_points !! CycleRow.name r = Some g
            ∧ cycle_point r ∈ CycleGroup.points g).
Proof.
  intros Hrun.
  destruct (prepare_cycle_rows_groups latitude longitude rows ∅ near_points)
    as (Hinv & _ & Hrows); [|done|done].
  intros name g Hg. by rewrite lookup_empty in Hg.
Qed.

(** X13.  [prepare_cycle_stops] raises exactly when [compare_positions]
    raises on one of the rows, although the direction it computes is
    not used. *)
Theorem prepare_cycle_stops_raises (latitude longitude : Q)
    (rows : list CycleRow.row) :
  prepare_cycle_stops latitude longitude rows = None
  ↔ ∃ r, r ∈ rows
         ∧ compare_positions (Q2R latitude) (Q2R longitude)
             (Q2R (CycleRow.lat r)) (Q2R (CycleRow.lon r)) = None.
Proof.
  unfold prepare_cycle_stops. generalize (∅ : gmap (option string) CycleGroup.t).
  induction rows as [|row rows IH]; intros near_points.
  { split; [done|]. intros (r & Hr & _). by apply not_elem_of_nil in Hr. }
  cbn [prepare_cycle_rows].
  pose proof (prepare_cycle_stop_some latitude longitude near_points row) as Hstep.
  destruct (compare_positions (Q2R latitude) (Q2R longitude)
              (Q2R (CycleRow.lat row)) (Q2R (CycleRow.lon row)))
    as [direction|] eqn:Hdir.
  - destruct Hstep as (mid & -> & _). cbn [mbind option_bind].
    rewrite IH. split.
    + intros (r & Hr & Hnone). exists r. split; [by right|done].
    + intros (r & [->|Hr]%elem_of_cons & Hnone); [congruence|eauto].
  - rewrite Hstep. split; [|done]. intros _. exists row. split; [left|done].
Qed.

Lemma prepare_cycle_stops_groups_witness :
  ∃ near_points g,
    prepare_cycle_stops 49.44 1.09 [cycle_row_here] = Some near_points
    ∧ near_points !! CycleRow.name cycle_row_here = Some g
    ∧ cycle_point cycle_row_here ∈ CycleGroup.points g.
Proof.
  pose proof (prepare_cycle_stop_some 49.44 1.09 ∅ cycle_row_here) as Hstep.
  change (CycleRow.lat cycle_row_here) with 49.44%Q in Hstep.
  change (CycleRow.lon cycle_row_here) with 1.09%Q in Hstep.
  rewrite compare_positions_here in Hstep.
  destruct Hstep as (near_points & Hrun & _).
  assert (Hall : prepare_cycle_stops 49.44 1.09 [cycle_row_here] = Some near_points).
  { unfold prepare_cycle_stops. cbn [prepare_cycle_rows]. by rewrite Hrun. }
  destruct (proj2 (prepare_cycle_stops_groups 49.44 1.09 [cycle_row_here]
                     near_points Hall) cycle_row_here) as (g & Hg & Hp); [left|].
  by exists near_points, g.
Defined.

(** ** More on the importer *)

(** X14.  From a record [import_table] inserts exactly the fields that
    are not dropped, in the order of the record: an identifier field
    with the tag before its text, any other field as it is. *)
Theorem import_table_values_fields (table_name base_id : string)
    (record values : dict) :
  import_table_values table_name base_id record = Some values →
  Forall2 (imported_field base_id)
          (filter (λ field, kept_field table_name field.1) record) values.
Proof.
  unfold dict in *.
  revert values. induction record as [|[key v] record IH]; intros values Hrun.
  { injection Hrun as <-. constructor. }
  cbn [import_table_values] in Hrun.
  destruct (decide (kept_field table_name key)) as [Hkept|Hdrop].
  - rewrite filter_cons_True by done.
    destruct Hkept as [Hk1 Hk2].
    rewrite !bool_decide_eq_true_2 in Hrun by done. cbn [andb] in Hrun.
    destruct (if bool_decide (key ∈ FIELD_IDS) then str_add base_id v else Some v)
      as [v'|] eqn:Hv; [|done].
    cbn [mbind option_bind] in Hrun.
    destruct (import_table_values table_name base_id record) as [values'|];
      [|done].
    injection Hrun as <-. constructor; [|by apply IH].
    split; [done|]. cbn [fst snd].
    destruct (bool_decide (key ∈ FIELD_IDS)).
    + destruct v; try done. injection Hv as <-. eauto.
    + by injection Hv as <-.
  - rewrite filter_cons_False by done.
    assert (bool_decide (key ∉ FIELD_DROPS)
            && bool_decide (table_name +:+ "." +:+ key ∉ FIELD_DROPS) = false)
      as Hb.
    { apply andb_false_iff. unfold kept_field in Hdrop.
      destruct (decide (key ∉ FIELD_DROPS)) as [?|?];
        [right|left]; apply bool_decide_eq_false_2; tauto. }
    rewrite Hb in Hrun. by apply IH.
Qed.

Lemma import_table_values_fields_witness :
  Forall2 (imported_field "AST-")
    (filter (λ field, kept_field "routes" field.1) sample_route_record)
    [("route_id", VStr "AST-12"); ("route_short_name", VStr "T1");
     ("route_long_name", VStr "A <> B")].
Proof.
  apply (import_table_values_fields "routes" "AST-" sample_route_record).
  vm_compute. reflexivity.
Defined.

(** X15.  The [values] comprehension of [import_table] raises on a
    record exactly when one of its kept identifier fields holds
    something other than text: a missing CSV cell (None) or a number.
    (What the engine makes of the statement built from the values is
    another matter.) *)
Theorem import_table_values_raises (table_name base_id : string) (record : dict) :
  import_table_values table_name base_id record = None
  ↔ ∃ key v, (key, v) ∈ record ∧ kept_field table_name key
             ∧ key ∈ FIELD_IDS ∧ ∀ s, v ≠ VStr s.
Proof.
  induction record as [|[key v] record IH].
  { split; [done|]. intros (key & v & Hin & _). by apply not_elem_of_nil in Hin. }
  cbn [import_table_values].
  destruct (decide (kept_field table_name key)) as [Hkept|Hdrop].
  - destruct Hkept as [Hk1 Hk2].
    rewrite !bool_decide_eq_true_2 by done. cbn [andb].
    destruct (decide (key ∈ FIELD_IDS)) as [Hid|Hid].
    + rewrite bool_decide_eq_true_2 by done.
      destruct v as [s| |q|z]; cbn [str_add mbind option_bind].
      * destruct (import_table_values table_name base_id record) as [values|].
        -- split; [done|].
           intros (key' & v' & [Heq|Hin]%elem_of_cons & Hkept & Hid' & Htext).
           ++ injection Heq as -> ->. by destruct (Htext s).
           ++ assert (Some values = None) as Hnone by (apply IH; eauto 8).
              done.
        -- split; [|done]. intros _.
           destruct (proj1 IH eq_refl) as (key' & v' & Hin & ?).
           exists key', v'. split; [by right|done].
      * split; [|done]. intros _. exists key, VNone.
        split; [left|]. split; [done|]. split; [done|]. done.
      * split; [|done]. intros _. exists key, (VFloat q).
        split; [left|]. split; [done|]. split; [done|]. done.
      * split; [|done]. intros _. exists key, (VInt z).
        split; [left|]. split; [done|]. split; [done|]. done.
    + rewrite bool_decide_eq_false_2 by done. cbn [mbind option_bind].
      destruct (import_table_values table_name base_id record) as [values|].
      * split; [done|].
        intros (key' & v' & [Heq|Hin]%elem_of_cons & Hkept & Hid' & Htext).
        -- injection Heq as -> ->. done.
        -- assert (Some values = None) as Hnone by (apply IH; eauto 8).
           done.
      * split; [|done]. intros _.
        destruct (proj1 IH eq_refl) as (key' & v' & Hin & ?).
        exists key', v'. split; [by right|done].
  - assert (bool_decide (key ∉ FIELD_DROPS)
            && bool_decide (table_name +:+ "." +:+ key ∉ FIELD_DROPS) = false)
      as ->.
    { apply andb_false_iff. unfold kept_field in Hdrop.
      destruct (decide (key ∉ FIELD_DROPS)) as [?|?];
        [right|left]; apply bool_decide_eq_false_2; tauto. }
    rewrite IH. split.
    + intros (key' & v' & Hin & ?). exists key', v'. split; [by right|done].
    + intros (key' & v' & [Heq|Hin]%elem_of_cons & Hkept & ?).
      * injection Heq as -> ->. done.
      * eauto 8.
Qed.

(** ** What the importer stores *)

Lemma dict_get_set_eq (key : string) (v : value) (record : dict) :
  dict_get key (dict_set key v record) = Some v.
Proof.
  induction record as [|[k v'] record IH]; cbn.
  - by rewrite String.eqb_refl.
  - destruct (String.eqb_spec k key) as [->|Hne]; cbn.
    + by rewrite String.eqb_refl.
    + apply String.eqb_neq in Hne. by rewrite Hne.
Qed.

Lemma dict_get_set_ne (key key' : string) (v : value) (record : dict) :
  key ≠ key' → dict_get key (dict_set key' v record) = dict_get key record.
Proof.
  intros Hne. induction record as [|[k v'] record IH]; cbn.
  - destruct (String.eqb_spec key' key) as [->|_]; done.
  - destruct (String.eqb_spec k key') as [->|Hk]; cbn.
    + destruct (String.eqb_spec key' key) as [->|_]; done.
    + destruct (String.eqb_spec k key); [done|]. exact IH.
Qed.

Lemma import_stop_kept (float : string → option binary64) (radians : binary64 → binary64)
    (case_table : Py.case_table) (CORRECTIONS : list (string * string))
    (row stop : dict) :
  import_stop float radians case_table CORRECTIONS row = Some (Some stop) →
  imported_stop float radians case_table CORRECTIONS row stop.
Proof.
  unfold import_stop. intros Hrun.
  destruct (dict_get "stop_lat" row ≫= float_of_value float)
    as [latitude|] eqn:Hlat; [|done]. cbn [mbind option_bind] in Hrun.
  destruct (float_lt latitude MIN_LATITUDE) eqn:H1; [done|].
  destruct (float_lt MAX_LATITUDE latitude) eqn:H2; [done|].
  cbn [orb] in Hrun.
  destruct (dict_get "stop_lon" row ≫= float_of_value float)
    as [longitude|] eqn:Hlon; [|done]. cbn [mbind option_bind] in Hrun.
  destruct (float_lt longitude MIN_LONGITUDE) eqn:H3; [done|].
  destruct (float_lt MAX_LONGITUDE longitude) eqn:H4; [done|].
  cbn [orb] in Hrun.
  destruct (dict_get "stop_name" row ≫= normalize_value case_table CORRECTIONS)
    as [stop_name|] eqn:Hname; [|done]. cbn [mbind option_bind] in Hrun.
  injection Hrun as <-.
  assert (passes_bounding_box latitude longitude) as Hpass.
  { split; apply passes_bounds_tests; try reflexivity.
    - by rewrite H1, H2.
    - by rewrite H3, H4. }
  exists latitude, longitude.
  split; [done|]. split; [done|]. split; [done|]. split; [|split; [|split]].
  - rewrite dict_get_set_ne by done. apply dict_get_set_eq.
  - apply dict_get_set_eq.
  - rewrite !dict_get_set_ne by done. rewrite Hname. apply dict_get_set_eq.
  - intros key Hk1 Hk2 Hk3. by rewrite !dict_get_set_ne.
Qed.

(** X16.  The stops [import_gtfs_data] keeps are, in the order of the
    file, made of rows each of whose two coordinates lies between its
    two bounds, bounds included, or is NaN: each stop holds the radians
    of these coordinates and the normalised name, and every other field
    of its row as it was. *)
Theorem import_stops_inside (float : string → option binary64) (radians : binary64 → binary64)
    (case_table : Py.case_table) (CORRECTIONS : list (string * string))
    (rows stops : list dict) :
  import_stops float radians case_table CORRECTIONS rows = Some stops →
  ∃ kept,
    kept `sublist_of` rows
    ∧ Forall2 (imported_stop float radians case_table CORRECTIONS) kept stops.
Proof.
  revert stops. induction rows as [|row rows IH]; intros stops Hrun.
  { injection Hrun as <-. exists []. split; constructor. }
  cbn [import_stops] in Hrun.
  destruct (import_stop float radians case_table CORRECTIONS row)
    as [stop|] eqn:Hstop; [|done]. cbn [mbind option_bind] in Hrun.
  destruct (import_stops float radians case_table CORRECTIONS rows)
    as [stops'|]; [|done]. cbn [mbind option_bind] in Hrun.
  destruct (IH stops' eq_refl) as (kept & Hsub & Hall).
  injection Hrun as <-. destruct stop as [stop|].
  - exists (row :: kept). split; [by constructor|].
    constructor; [|done]. by apply import_stop_kept.
  - exists kept. split; [by constructor|done].
Qed.

Lemma import_stops_inside_witness :
  ∃ kept,
    kept `sublist_of` [corner_stop_row]
    ∧ Forall2 (imported_stop sample_float (λ q, q) Py.ascii_table []) kept
        [ [("stop_id", VStr "7"); ("stop_name", VStr "X");
           ("stop_lat", VFloat 49.25066); ("stop_lon", VFloat 0.77446)] ].
Proof.
  apply (import_stops_inside sample_float (λ q, q) Py.ascii_table []
           [corner_stop_row]).
  vm_compute. reflexivity.
Defined.

(** X17.  A coordinate field without a comma makes
    [derive_cycle_latitude] raise (there is no second component), while
    [derive_cycle_longitude] reads the whole text between the first and
    the last character. *)
Theorem derive_cycle_without_comma (float : string → option binary64)
    (coordonneesxy : string) :
  Py.contains_char "," (Py.slice_1_m1 coordonneesxy) = false →
  derive_cycle_latitude float coordonneesxy = None
  ∧ derive_cycle_longitude float coordonneesxy
    = float (Py.slice_1_m1 coordonneesxy).
Proof.
  intros Hfree. unfold derive_cycle_latitude, derive_cycle_longitude.
  rewrite split_free by done. split; reflexivity.
Qed.

Lemma derive_cycle_without_comma_witness :
  derive_cycle_latitude sample_float "(49.44)" = None
  ∧ derive_cycle_longitude sample_float "(49.44)" = Some 49.44%float.
Proof.
  apply (derive_cycle_without_comma sample_float "(49.44)"). reflexivity.
Defined.

(** ** The corrections file *)

Lemma split_nonempty (sep : ascii) (s : string) : Py.split sep s ≠ [].
Proof.
  destruct s as [|c s]; [done|]. cbn [Py.split].
  destruct (Ascii.eqb c sep); [done|]. by destruct (Py.split sep s).
Qed.

(** Joining the fields of a split line gives the line back. *)
Lemma join_split (sep : ascii) (s : string) :
  Py.join (String sep EmptyString) (Py.split sep s) = s.
Proof.
  unfold Py.join. induction s as [|c s IH]; [done|].
  cbn [Py.split].
  pose proof (split_nonempty sep s) as Hne.
  destruct (Ascii.eqb_spec c sep) as [->|Hc].
  - destruct (Py.split sep s) as [|w ws]; [done|].
    change (String.concat (String sep "") ("" :: w :: ws))
      with (String sep (String.concat (String sep "") (w :: ws))).
    by rewrite IH.
  - destruct (Py.split sep s) as [|w ws]; [done|].
    destruct ws as [|w' ws].
    + cbn in IH. cbn. by rewrite IH.
    + change (String.concat (String sep "") (String c w :: w' :: ws))
        with (String c (String.concat (String sep "") (w :: w' :: ws))).
      by rewrite IH.
Qed.

Lemma split_length (sep : ascii) (s : string) :
  length (Py.split sep s) = S (count_char sep s).
Proof.
  induction s as [|c s IH]; [done|]. cbn [Py.split count_char].
  pose proof (split_nonempty sep s) as Hne.
  destruct (Ascii.eqb c sep).
  - cbn. by rewrite IH.
  - destruct (Py.split sep s) as [|w ws]; [done|]. cbn in *. lia.
Qed.

(** X18.  [load_corrections] keeps the lines that hold a tabulation, in
    order, each as its fields: joining the fields with tabulations gives
    the line back, and there is one field more than tabulations, so an
    entry unpacks as [bad, good] exactly when its line has a single
    tabulation. *)
Theorem load_corrections_entries (lines : list string) :
  Forall2 (λ line entry,
             Py.join (String tab EmptyString) entry = line
             ∧ length entry = S (count_char tab line)
             ∧ (is_Some (unpack_correction entry) ↔ count_char tab line = 1%nat))
          (filter (λ line, Py.contains_char tab line = true) lines)
          (load_corrections lines).
Proof.
  unfold load_corrections.
  induction (filter (λ line, Py.contains_char tab line = true) lines)
    as [|line kept IH]; [constructor|].
  cbn [fmap list_fmap]. constructor; [|exact IH].
  split; [apply join_split|]. split; [apply split_length|].
  pose proof (split_length tab line) as Hlen.
  destruct (Py.split tab line) as [|bad [|good [|third rest]]]; cbn in Hlen |- *.
  - split; [by intros [? ?]|lia].
  - split; [by intros [? ?]|lia].
  - split; [lia|eauto].
  - split; [by intros [? ?]|lia].
Qed.

(** X19.  On ASCII names [normalize_name] reads its input up to letter
    case: two names that differ by the case of their letters only have
    the same normal form. *)
Theorem normalize_name_ignores_case (CORRECTIONS : list (string * string))
    (name1 name2 : string) :
  Py.lower name1 = Py.lower name2 →
  normalize_name Py.ascii_table CORRECTIONS name1
  = normalize_name Py.ascii_table CORRECTIONS name2.
Proof.
  intros Hcase. unfold normalize_name, Py.title.
  rewrite <- (title_from_lower false name1), <- (title_from_lower false name2).
  by rewrite Hcase.
Qed.

Lemma normalize_name_ignores_case_witness :
  normalize_name Py.ascii_table [("De ", "de ")] "RUE DE PARIS"
  = normalize_name Py.ascii_table [("De ", "de ")] "rue de paris".
Proof.
  apply (normalize_name_ignores_case [("De ", "de ")] "RUE DE PARIS" "rue de paris").
  reflexivity.
Defined.

(** ** The cycle facilities of the two sources *)

Lemma cycle_stop_record (float : string → option binary64) (radians : binary64 → binary64)
    (row stop record : dict) :
  cycle_stop float radians row = Some stop →
  import_table_values "cycle_stops" "CYC-" stop = Some record →
  cycling_record record.
Proof.
  unfold cycle_stop. intros Hstop Hrecord.
  destruct (dict_get "id_local" row) as [cycle_id|]; [|done].
  cbn [mbind option_bind] in Hstop.
  destruct (dict_get_str "coordonneesxy" row) as [xy|]; [|done].
  cbn [mbind option_bind] in Hstop.
  destruct (derive_cycle_latitude float xy) as [cycle_lat|]; [|done].
  cbn [mbind option_bind] in Hstop.
  destruct (derive_cycle_longitude float xy) as [cycle_lon|]; [|done].
  cbn [mbind option_bind] in Hstop.
  destruct (dict_get "mobilier" row) as [mobilier|]; [|done].
  cbn [mbind option_bind] in Hstop.
  destruct (dict_get "acces" row) as [acces|]; [|done].
  cbn [mbind option_bind] in Hstop.
  injection Hstop as <-.
  destruct cycle_id as [id| | |]; try (vm_compute in Hrecord; discriminate Hrecord).
  assert (Hrun : import_table_values "cycle_stops" "CYC-"
            [("cycle_id", VStr id); ("cycle_name", VNone);
             ("cycle_lat", VFloat (radians cycle_lat));
             ("cycle_lon", VFloat (radians cycle_lon));
             ("cycle_type", VInt (derive_cycle_type mobilier));
             ("cycle_free", VInt (derive_cycle_free acces))]
          = Some [("cycle_id", VStr ("CYC-" +:+ id)); ("cycle_name", VNone);
                  ("cycle_lat", VFloat (radians cycle_lat));
                  ("cycle_lon", VFloat (radians cycle_lon));
                  ("cycle_type", VInt (derive_cycle_type mobilier));
                  ("cycle_free", VInt (derive_cycle_free acces))]).
  { reflexivity. }
  rewrite Hrun in Hrecord. injection Hrecord as <-.
  exists id, (derive_cycle_type mobilier), (derive_cycle_free acces).
  repeat split; try reflexivity.
  - unfold derive_cycle_type. repeat case_match; lia.
  - unfold derive_cycle_type. repeat case_match; lia.
  - unfold derive_cycle_free. repeat case_match; auto.
Qed.

Lemma lovelo_stop_record (float : string → option binary64) (radians : binary64 → binary64)
    (case_table : Py.case_table) (CORRECTIONS : list (string * string))
    (row stop record : dict) :
  lovelo_stop float radians case_table CORRECTIONS row = Some stop →
  import_table_values "cycle_stops" "LOV-" stop = Some record →
  lovelo_record record.
Proof.
  unfold lovelo_stop. intros Hstop Hrecord.
  destruct (dict_get "station_id" row) as [cycle_id|]; [|done].
  cbn [mbind option_bind] in Hstop.
  destruct (dict_get "name" row ≫= normalize_value case_table CORRECTIONS)
    as [cycle_name|] eqn:Hname; [|done].
  cbn [mbind option_bind] in Hstop.
  destruct (dict_get "lat" row ≫= float_of_value float) as [cycle_lat|]; [|done].
  cbn [mbind option_bind] in Hstop.
  destruct (dict_get "lon" row ≫= float_of_value float) as [cycle_lon|]; [|done].
  cbn [mbind option_bind] in Hstop.
  injection Hstop as <-.
  assert (∃ name, cycle_name = VStr name) as [name ->].
  { destruct (dict_get "name" row) as [v|]; [|done]. cbn in Hname.
    destruct v; try done. injection Hname as <-. eauto. }
  destruct cycle_id as [id| | |]; try (vm_compute in Hrecord; discriminate Hrecord).
  assert (Hrun : import_table_values "cycle_stops" "LOV-"
            [("cycle_id", VStr id); ("cycle_name", VStr name);
             ("cycle_lat", VFloat (radians cycle_lat));
             ("cycle_lon", VFloat (radians cycle_lon));
             ("cycle_type", VInt (derive_cycle_type (VStr "LOVELO")));
             ("cycle_free", VInt (derive_cycle_free (VStr "PAYANT")))]
          = Some [("cycle_id", VStr ("LOV-" +:+ id)); ("cycle_name", VStr name);
                  ("cycle_lat", VFloat (radians cycle_lat));
                  ("cycle_lon", VFloat (radians cycle_lon));
                  ("cycle_type", VInt 4); ("cycle_free", VInt 0)]).
  { reflexivity. }
  pose proof (eq_trans (eq_sym Hrun) Hrecord) as Heq.
  injection Heq as <-.
  exists id, name. repeat split; reflexivity.
Qed.

(** X20.  Every record [import_cycle_data] inserts has its raw
    identifier after the tag CYC-, no name, a type from -1 to 4 and a
    free flag 0 or 1; every record [import_lovelo] inserts has its raw
    identifier after the tag LOV-, a name, the type 4 and the free flag
    0.  One record is inserted per row, and no identifier of the first
    source is an identifier of the second, whatever the raw
    identifiers. *)
Theorem cycle_sources_records (float : string → option binary64) (radians : binary64 → binary64)
    (case_table : Py.case_table) (CORRECTIONS : list (string * string))
    (cycle_data lovelo_data cycle_records lovelo_records : list dict) :
  import_cycle_data float radians cycle_data = Some cycle_records →
  import_lovelo float radians case_table CORRECTIONS lovelo_data
  = Some lovelo_records →
  Forall cycling_record cycle_records
  ∧ length cycle_records = length cycle_data
  ∧ Forall lovelo_record lovelo_records
  ∧ length lovelo_records = length lovelo_data
  ∧ ∀ r1 r2, r1 ∈ cycle_records → r2 ∈ lovelo_records →
             dict_get "cycle_id" r1 ≠ dict_get "cycle_id" r2.
Proof.
  unfold import_cycle_data, import_lovelo, import_table.
  intros Hcycle Hlovelo.
  destruct (mapM (cycle_stop float radians) cycle_data)
    as [cycle_stops|] eqn:Hc1; [|done].
  cbn [mbind option_bind] in Hcycle.
  destruct (mapM (lovelo_stop float radians case_table CORRECTIONS) lovelo_data)
    as [lovelo_stops|] eqn:Hl1; [|done].
  cbn [mbind option_bind] in Hlovelo.
  apply mapM_Some in Hc1, Hl1, Hcycle, Hlovelo.
  assert (Hcyc : Forall cycling_record cycle_records).
  { clear Hl1 Hlovelo. revert cycle_records Hcycle.
    induction Hc1 as [|row stop rows stops Hstop _ IH];
      intros records Hrecords; inversion Hrecords; subst; constructor.
    - by eapply cycle_stop_record.
    - by apply IH. }
  assert (Hlov : Forall lovelo_record lovelo_records).
  { clear Hc1 Hcycle Hcyc. revert lovelo_records Hlovelo.
    induction Hl1 as [|row stop rows stops Hstop _ IH];
      intros records Hrecords; inversion Hrecords; subst; constructor.
    - by eapply lovelo_stop_record.
    - by apply IH. }
  split; [done|]. split.
  { apply Forall2_length in Hc1, Hcycle. congruence. }
  split; [done|]. split.
  { apply Forall2_length in Hl1, Hlovelo. congruence. }
  intros r1 r2 Hr1 Hr2.
  rewrite Forall_forall in Hcyc, Hlov.
  destruct (Hcyc r1 Hr1) as (id1 & ? & ? & -> & _).
  destruct (Hlov r2 Hr2) as (id2 & ? & -> & _).
  discriminate.
Qed.

Lemma cycle_sources_records_witness :
  Forall cycling_record
    [ [("cycle_id", VStr "CYC-7"); ("cycle_name", VNone);
       ("cycle_lat", VFloat 49.44); ("cycle_lon", VFloat 1.09);
       ("cycle_type", VInt 0); ("cycle_free", VInt 1)] ]
  ∧ Forall lovelo_record
      [ [("cycle_id", VStr "LOV-7"); ("cycle_name", VStr "Gare");
         ("cycle_lat", VFloat 49.44); ("cycle_lon", VFloat 1.09);
         ("cycle_type", VInt 4); ("cycle_free", VInt 0)] ].
Proof.
  destruct (cycle_sources_records sample_float (λ q, q) Py.ascii_table []
              [cycling_row] [lovelo_station]
              [ [("cycle_id", VStr "CYC-7"); ("cycle_name", VNone);
                 ("cycle_lat", VFloat 49.44); ("cycle_lon", VFloat 1.09);
                 ("cycle_type", VInt 0); ("cycle_free", VInt 1)] ]
              [ [("cycle_id", VStr "LOV-7"); ("cycle_name", VStr "Gare");
                 ("cycle_lat", VFloat 49.44); ("cycle_lon", VFloat 1.09);
                 ("cycle_type", VInt 4); ("cycle_free", VInt 0)] ])
    as (Hcyc & _ & Hlov & _).
  - vm_compute. reflexivity.
  - vm_compute. reflexivity.
  - split; [exact Hcyc|exact Hlov].
Defined.
